(** * External link hook of the documentation build

    A shallow embedding of [scripts/external_link_checker.py]: the MkDocs
    hook [on_page_content], which rewrites the anchor tags of a rendered
    page with one [re.sub] pass, and the pass-through hook [on_config].

    The hook is a dozen lines of Python over three library calls:
    [re.sub] with a fixed pattern, [urllib.parse.urlparse] and
    [str.replace].  Each of them is embedded below as an executable
    function, so that the hook can be run on concrete pages. *)

From Stdlib Require Import Ascii.
From stdpp Require Import gmap strings list.

Local Open Scope char_scope.
Local Open Scope list_scope.

(** ** Python values *)

(** A Python [str] is a sequence of code points.  The embedding keeps the
    code points below U+0100 (one [ascii] each, read as Latin-1). *)
Definition str : Type := list ascii.

(** A literal of the source, written as a Rocq string. *)
Definition py (s : string) : str := String.list_ascii_of_string s.

(** The double quote and the apostrophe, which literals of the source
    contain. *)
Definition dquote : ascii := "034".
Definition squote : ascii := "039".

(** Exceptions the hook can meet: [urlparse] raises [ValueError]. *)
Inductive exn : Type := ValueError.

(** The outcome of a call: a value, or a raised exception. *)
Inductive result (A : Type) : Type :=
| Ok (a : A)
| Raise (e : exn).
Arguments Ok {A} a.
Arguments Raise {A} e.

#[global] Instance result_ret : MRet result := fun A a => Ok a.
#[global] Instance result_bind : MBind result := fun A B f r =>
  match r with
  | Ok a => f a
  | Raise e => Raise e
  end.

(** The values the [site_url] setting of a MkDocs configuration takes:
    [None] when unset, a string otherwise. *)
Inductive pyval : Type :=
| PyNone
| PyStr (s : str).

(** Truth value of [if v:]. *)
Definition truthy (v : pyval) : bool :=
  match v with
  | PyNone => false
  | PyStr [] => false
  | PyStr (_ :: _) => true
  end.

(** ** String methods *)

Module PyStr.

(** [s.startswith(p)]. *)
Fixpoint startswith (p s : str) : bool :=
  match p, s with
  | [], _ => true
  | _ :: _, [] => false
  | a :: p', b :: s' => Ascii.eqb a b && startswith p' s'
  end.

(** [sub in s]. *)
Fixpoint contains (sub s : str) : bool :=
  startswith sub s ||
  match s with
  | [] => false
  | _ :: s' => contains sub s'
  end.

(** [c in s] for a single character. *)
Definition has (c : ascii) (s : str) : bool := existsb (Ascii.eqb c) s.

(** [s.replace(old, new)] for a non-empty [old]: the occurrences of [old]
    are found from left to right without overlap.  [skip] counts the
    characters of an occurrence still to be passed over. *)
Fixpoint replace_from (old new : str) (skip : nat) (s : str) : str :=
  match s with
  | [] => []
  | c :: s' =>
      match skip with
      | S k => replace_from old new k s'
      | O =>
          if startswith old s
          then new ++ replace_from old new (Nat.pred (length old)) s'
          else c :: replace_from old new 0 s'
      end
  end.

Definition replace (old new s : str) : str := replace_from old new 0 s.

(** [s.count(old)] for a non-empty [old]: the number of occurrences that
    [replace] finds. *)
Fixpoint count_from (old : str) (skip : nat) (s : str) : nat :=
  match s with
  | [] => 0
  | c :: s' =>
      match skip with
      | S k => count_from old k s'
      | O =>
          if startswith old s
          then S (count_from old (Nat.pred (length old)) s')
          else count_from old 0 s'
      end
  end.

Definition count (old s : str) : nat := count_from old 0 s.

(** [sep.join(parts)]. *)
Fixpoint join (sep : str) (parts : list str) : str :=
  match parts with
  | [] => []
  | [p] => p
  | p :: ps => p ++ sep ++ join sep ps
  end.

(** [s.find(c)] for a single character; [None] stands for [-1]. *)
Fixpoint find (c : ascii) (s : str) : option nat :=
  match s with
  | [] => None
  | x :: s' => if Ascii.eqb x c then Some 0 else S <$> find c s'
  end.

(** [s.lstrip(chars)], the set [chars] given as a predicate. *)
Fixpoint lstrip (chars : ascii -> bool) (s : str) : str :=
  match s with
  | [] => []
  | c :: s' => if chars c then lstrip chars s' else s
  end.

(** [s.split(c)] for a single character: always at least one part. *)
Fixpoint split (c : ascii) (s : str) : list str :=
  match s with
  | [] => [[]]
  | x :: s' =>
      if Ascii.eqb x c then [] :: split c s'
      else match split c s' with
           | [] => [[x]]
           | p :: ps => (x :: p) :: ps
           end
  end.

(** [s.partition(c)] for a single character: the text before the first
    [c], whether [c] was found, and the text after it. *)
Fixpoint partition (c : ascii) (s : str) : str * bool * str :=
  match s with
  | [] => ([], false, [])
  | x :: s' =>
      if Ascii.eqb x c then ([], true, s')
      else let '(a, found, b) := partition c s' in (x :: a, found, b)
  end.

(** [s.rpartition(c)[2]]: the text after the last [c], all of [s] when
    there is none. *)
Fixpoint after_last (c : ascii) (s : str) : str :=
  match s with
  | [] => []
  | x :: s' =>
      if has c s' then after_last c s'
      else if Ascii.eqb x c then s'
      else s
  end.

(** [c.isascii() and c.isalpha()]. *)
Definition is_ascii_alpha (c : ascii) : bool :=
  let n := nat_of_ascii c in
  ((65 <=? n) && (n <=? 90) || (97 <=? n) && (n <=? 122))%nat.

(** [c.isascii() and c.isdigit()]. *)
Definition is_ascii_digit (c : ascii) : bool :=
  let n := nat_of_ascii c in ((48 <=? n) && (n <=? 57))%nat.

(** Membership in [0123456789ABCDEFabcdef]. *)
Definition is_hex_digit (c : ascii) : bool :=
  let n := nat_of_ascii c in
  is_ascii_digit c || ((65 <=? n) && (n <=? 70) || (97 <=? n) && (n <=? 102))%nat.

(** [int(s, 10)] on a string of ASCII digits. *)
Definition int10 (s : str) : N :=
  foldl (fun acc c => 10 * acc + (N_of_ascii c - 48))%N 0%N s.

(** ['%x' % n] for [n] below 16 ** [width]. *)
Fixpoint hex (width : nat) (n : N) : str :=
  match width with
  | O => []
  | S w =>
      (if (n <? 16)%N then [] else hex w (n / 16)%N)
      ++ [nth (N.to_nat (n mod 16)%N) (py "0123456789abcdef") "0"]
  end.

End PyStr.

(** ** Regular expressions *)

(** The fragment of Python's [re] the program uses: a sequence of
    literals, character sets, greedy repetitions of a character set, one
    capturing group and the end anchor.  Matching is by backtracking, as
    in [re]: a greedy repetition first takes as many characters as it
    can and gives them back one at a time when the rest fails. *)
Module Re.

Inductive node : Type :=
| Lit (c : ascii)               (* a literal character *)
| Cls (p : ascii -> bool)        (* [...] or a category such as \s *)
| Star (p : ascii -> bool)       (* p*, greedy *)
| Plus (p : ascii -> bool)       (* p+, greedy *)
| GOpen                          (* ( of group 1 *)
| GClose                         (* ) of group 1 *)
| Eos.                           (* \Z *)

Definition pattern : Type := list node.

(** \s on [str] patterns: the characters with [str.isspace()], which
    below U+0100 are TAB..CR, FS..US, space, NEL and NBSP. *)
Definition is_space (c : ascii) : bool :=
  let n := nat_of_ascii c in
  ((9 <=? n) && (n <=? 13) || (28 <=? n) && (n <=? 32)
   || (n =? 133) || (n =? 160))%nat.

(** The state of a match attempt: the number of characters consumed so
    far, and the start and end offsets of group 1. *)
Record mstate : Type := MState { pos : nat; gstart : nat; gend : nat }.

(** One more character consumed. *)
Definition advance (st : mstate) : mstate :=
  MState (S (pos st)) (gstart st) (gend st).

(** A greedy repetition of the set [f] followed by the continuation [k]:
    the longest run first, then one character less, down to none. *)
Fixpoint star (f : ascii -> bool) (k : str -> mstate -> option mstate)
    (s : str) (st : mstate) {struct s} : option mstate :=
  match s with
  | x :: s' =>
      if f x
      then match star f k s' (advance st) with
           | Some r => Some r
           | None => k s st
           end
      else k s st
  | [] => k s st
  end.

(** [exec p s st] runs pattern [p] on the remaining input [s]. *)
Fixpoint exec (p : pattern) (s : str) (st : mstate) {struct p} : option mstate :=
  match p with
  | [] => Some st
  | Lit c :: p' =>
      match s with
      | x :: s' => if Ascii.eqb x c then exec p' s' (advance st) else None
      | [] => None
      end
  | Cls f :: p' =>
      match s with
      | x :: s' => if f x then exec p' s' (advance st) else None
      | [] => None
      end
  | Star f :: p' => star f (exec p') s st
  | Plus f :: p' =>
      match s with
      | x :: s' => if f x then star f (exec p') s' (advance st) else None
      | [] => None
      end
  | GOpen :: p' => exec p' s (MState (pos st) (pos st) (gend st))
  | GClose :: p' => exec p' s (MState (pos st) (gstart st) (pos st))
  | Eos :: p' =>
      match s with
      | [] => exec p' s st
      | _ :: _ => None
      end
  end.

(** A match object: [m.group(0)] and [m.group(1)]. *)
Record Match : Type := { group0 : str; group1 : str }.

(** [re.match(p, s)]: a match that starts at the first character of [s]. *)
Definition match_ (p : pattern) (s : str) : option Match :=
  match exec p s (MState 0 0 0) with
  | Some st =>
      Some {| group0 := take (pos st) s;
              group1 := take (gend st - gstart st) (drop (gstart st) s) |}
  | None => None
  end.

(** [re.sub(p, repl, s)] with a function [repl]: the text is scanned
    from left to right, each match found at the current position is
    replaced by what [repl] returns for it and the scan resumes after the
    match; a character at which nothing matches is copied.  [repl] is
    called as the matches are found, so the first exception it raises
    ends the pass.  [skip] counts the characters of the last match still
    to be passed over.  (The patterns of this program match no empty
    string; an empty match would be replaced and the character after it
    copied.) *)
Fixpoint sub_from (p : pattern) (repl : Match -> result str)
    (skip : nat) (s : str) : result str :=
  match s with
  | [] => Ok []
  | c :: s' =>
      match skip with
      | S k => sub_from p repl k s'
      | O =>
          match match_ p s with
          | Some m =>
              r ← repl m;
              match length (group0 m) with
              | O => rest ← sub_from p repl 0 s'; Ok (r ++ c :: rest)
              | S k => rest ← sub_from p repl k s'; Ok (r ++ rest)
              end
          | None => rest ← sub_from p repl 0 s'; Ok (c :: rest)
          end
      end
  end.

Definition sub (p : pattern) (repl : Match -> result str) (s : str) : result str :=
  sub_from p repl 0 s.

(** [re.finditer(p, s)]: the matches that [sub] replaces, in order. *)
Fixpoint finditer_from (p : pattern) (skip : nat) (s : str) : list Match :=
  match s with
  | [] => []
  | c :: s' =>
      match skip with
      | S k => finditer_from p k s'
      | O =>
          match match_ p s with
          | Some m => m :: finditer_from p (Nat.pred (length (group0 m))) s'
          | None => finditer_from p 0 s'
          end
      end
  end.

Definition finditer (p : pattern) (s : str) : list Match := finditer_from p 0 s.

End Re.

(** ** IP address literals *)

(** [ipaddress.ip_address] on a string, as far as [urlsplit] uses it:
    which kind of address the text is, if any. *)
Module IpAddress.
Import PyStr.

Inductive version : Type := IPv4 | IPv6.

(** [IPv4Address._parse_octet]: one to three ASCII digits without a
    leading zero, at most 255. *)
Definition parse_octet (o : str) : option N :=
  match o with
  | [] => None
  | d :: _ =>
      if negb (forallb is_ascii_digit o) then None
      else if (3 <? length o)%nat then None
      else if negb (bool_decide (o = ["0"])) && Ascii.eqb d "0" then None
      else if (255 <? int10 o)%N then None
      else Some (int10 o)
  end.

(** [IPv4Address(s)._ip]; [None] stands for [AddressValueError]. *)
Definition ipv4_address (s : str) : option N :=
  if has "/" s then None
  else match s with
       | [] => None
       | _ :: _ =>
           let octets := split "." s in
           if negb (length octets =? 4)%nat then None
           else foldl (fun acc o => a ← acc; n ← parse_octet o; Some (256 * a + n)%N)
                      (Some 0%N) octets
       end.

(** [IPv6Address._parse_hextet]: one to four hexadecimal digits. *)
Definition parse_hextet (h : str) : bool :=
  forallb is_hex_digit h && (length h <=? 4)%nat && negb (bool_decide (h = [])).

(** The indices [i] of [range(1, len(parts) - 1)] with [parts[i]] empty. *)
Definition inner_empty (parts : list str) : list nat :=
  List.filter (fun i => bool_decide (parts !! i = Some []))
              (seq 1 (length parts - 2)).

(** [IPv6Address._ip_int_from_string]: whether the text parses. *)
Definition ipv6_int_ok (ip_str : str) : bool :=
  match ip_str with
  | [] => false
  | _ :: _ =>
      let parts := split ":" ip_str in
      if (length parts <? 3)%nat then false
      else
        let tail := List.last parts [] in
        let parts' :=
          if has "." tail
          then v ← ipv4_address tail;
               Some (removelast parts
                     ++ [hex 4 (N.land (N.shiftr v 16) 65535);
                         hex 4 (N.land v 65535)])
          else Some parts in
        match parts' with
        | None => false
        | Some parts =>
            if (9 <? length parts)%nat then false
            else
              let first_empty := bool_decide (parts !! 0%nat = Some []) in
              let last_empty := bool_decide (List.last parts ["0"] = []) in
              match inner_empty parts with
              | _ :: _ :: _ => false
              | [skip_index] =>
                  let parts_hi := if first_empty then skip_index - 1 else skip_index in
                  let parts_lo :=
                    if last_empty then length parts - skip_index - 1 - 1
                    else length parts - skip_index - 1 in
                  if first_empty && negb (parts_hi =? 0)%nat then false
                  else if last_empty && negb (parts_lo =? 0)%nat then false
                  else if (8 - (parts_hi + parts_lo) <? 1)%nat then false
                  else forallb parse_hextet (take parts_hi parts)
                       && forallb parse_hextet (drop (length parts - parts_lo) parts)
              | [] =>
                  if negb (length parts =? 8)%nat then false
                  else if first_empty then false
                  else if last_empty then false
                  else forallb parse_hextet parts
              end
        end
  end.

(** [IPv6Address(s)]: no slash, an optional non-empty scope id after one
    percent sign, and an address that parses. *)
Definition ipv6_address_ok (s : str) : bool :=
  if has "/" s then false
  else let '(addr, sep, scope_id) := partition "%" s in
       if sep && (bool_decide (scope_id = []) || has "%" scope_id) then false
       else ipv6_int_ok addr.

(** [ipaddress.ip_address(s)]; [None] stands for [ValueError]. *)
Definition ip_address (s : str) : option version :=
  match ipv4_address s with
  | Some _ => Some IPv4
  | None => if ipv6_address_ok s then Some IPv6 else None
  end.

End IpAddress.

(** ** URL parsing *)

(** [urllib.parse.urlparse] of CPython 3.11, as far as the hook reads its
    result: the [netloc] attribute, or the [ValueError] the call raises.
    ([urlparse] is [urlsplit] followed by the split of the path
    parameters, which neither changes [netloc] nor raises.) *)
Module UrlParse.
Import PyStr.

(** [_WHATWG_C0_CONTROL_OR_SPACE]: U+0000 to U+0020. *)
Definition is_c0_control_or_space (c : ascii) : bool :=
  (nat_of_ascii c <=? 32)%nat.

(** [_UNSAFE_URL_BYTES_TO_REMOVE]: TAB, CR and LF. *)
Definition is_unsafe_url_byte (c : ascii) : bool :=
  Ascii.eqb c "009" || Ascii.eqb c "013" || Ascii.eqb c "010".

(** [scheme_chars]: ASCII letters, digits, plus, minus and dot. *)
Definition is_scheme_char (c : ascii) : bool :=
  is_ascii_alpha c || is_ascii_digit c
  || Ascii.eqb c "+" || Ascii.eqb c "-" || Ascii.eqb c ".".

(** A delimiter that ends the network location. *)
Definition is_netloc_delim (c : ascii) : bool :=
  Ascii.eqb c "/" || Ascii.eqb c "?" || Ascii.eqb c "#".

(** [_splitnetloc(url, 2)[0]], given [url[2:]]: the text up to the first
    of the delimiters. *)
Fixpoint splitnetloc (s : str) : str :=
  match s with
  | [] => []
  | c :: s' => if is_netloc_delim c then [] else c :: splitnetloc s'
  end.

(** The match of [\Av[a-fA-F0-9]+\..+\Z]. *)
Definition ipvfuture : Re.pattern :=
  [Re.Lit "v"; Re.Plus is_hex_digit; Re.Lit ".";
   Re.Plus (fun c => negb (Ascii.eqb c "010")); Re.Eos].

(** [_check_bracketed_host]: [true] when it returns, [false] when it
    raises. *)
Definition check_bracketed_host (hostname : str) : bool :=
  if startswith ["v"] hostname
  then bool_decide (is_Some (Re.match_ ipvfuture hostname))
  else match IpAddress.ip_address hostname with
       | Some IpAddress.IPv6 => true
       | Some IpAddress.IPv4 => false
       | None => false
       end.

(** [_check_bracketed_netloc]: [true] when it returns, [false] when it
    raises. *)
Definition check_bracketed_netloc (netloc : str) : bool :=
  let hostname_and_port := after_last "@" netloc in
  let '(before_bracket, have_open_br, bracketed) := partition "[" hostname_and_port in
  if have_open_br
  then
    if negb (bool_decide (before_bracket = [])) then false
    else
      let '(hostname, _, port) := partition "]" bracketed in
      if negb (bool_decide (port = [])) && negb (startswith [":"] port) then false
      else check_bracketed_host hostname
  else
    let '(hostname, _, port) := partition ":" hostname_and_port in
    check_bracketed_host hostname.

(** The text [urlsplit] works on once the scheme is taken off: leading
    control characters and spaces stripped, TAB, CR and LF removed, and a
    leading [scheme:] dropped when the text before the first colon starts
    with a letter and holds scheme characters only. *)
Definition after_scheme (url : str) : str :=
  let url := lstrip is_c0_control_or_space url in
  let url := List.filter (fun c => negb (is_unsafe_url_byte c)) url in
  match find ":" url with
  | Some i =>
      if (0 <? i)%nat
         && match url with c :: _ => is_ascii_alpha c | [] => false end
         && forallb is_scheme_char (take i url)
      then drop (S i) url
      else url
  | None => url
  end.

(** [urlparse(url).netloc].  [_checknetloc], which raises when the NFKC
    form of a non-ASCII [netloc] holds one of [/?#@:], never raises on
    the code points kept here: none of U+0080..U+00FF normalises to such
    a character. *)
Definition netloc (url : str) : result str :=
  let url := after_scheme url in
  if startswith ["/"; "/"] url
  then
    let netloc := splitnetloc (drop 2 url) in
    if (has "[" netloc && negb (has "]" netloc))
       || (has "]" netloc && negb (has "[" netloc))
    then Raise ValueError
    else if has "[" netloc && has "]" netloc
    then if check_bracketed_netloc netloc then Ok netloc else Raise ValueError
    else Ok netloc
  else Ok [].

End UrlParse.

(** ** The hook *)

(** The build configuration: a mapping from setting names to values. *)
Abbreviation Config := (gmap string pyval).

Section Hook.

(** The page and the file collection MkDocs passes to the hook; the hook
    knows nothing of them. *)
Context {Page Files : Type}.

(** The text inserted in front of [href=] by the two [replace] calls. *)
Definition href_eq : str := py "href=".
Definition target_blank_href : str :=
  py "target=" ++ [dquote] ++ py "_blank" ++ [dquote] ++ py " href=".
Definition rel_noopener_href : str :=
  py "rel=" ++ [dquote] ++ py "noopener noreferrer" ++ [dquote] ++ py " href=".

(** [link_pattern], the raw string <a\s+[^>]*href=[Q]([^Q]+)[Q][^>]*>
    where Q stands for the two quote characters, double and single. *)
Definition is_quote (c : ascii) : bool := Ascii.eqb c dquote || Ascii.eqb c squote.
Definition not_gt (c : ascii) : bool := negb (Ascii.eqb c ">").
Definition not_quote (c : ascii) : bool := negb (is_quote c).

Definition link_pattern : Re.pattern :=
  [Re.Lit "<"; Re.Lit "a"; Re.Plus Re.is_space; Re.Star not_gt;
   Re.Lit "h"; Re.Lit "r"; Re.Lit "e"; Re.Lit "f"; Re.Lit "=";
   Re.Cls is_quote; Re.GOpen; Re.Plus not_quote; Re.GClose; Re.Cls is_quote;
   Re.Star not_gt; Re.Lit ">"].

(** Lines 31 to 34 of the source: the two guarded [replace] calls that
    rewrite [full_match] once the link is known to be external. *)
Definition add_attributes (full_match : str) : str :=
  let full_match :=
    if negb (PyStr.contains (py "target=") full_match)
    then PyStr.replace href_eq target_blank_href full_match
    else full_match in
  let full_match :=
    if negb (PyStr.contains (py "rel=") full_match)
    then PyStr.replace href_eq rel_noopener_href full_match
    else full_match in
  full_match.

(** The inner function [replace_external_link], closed over [config]. *)
Definition replace_external_link (config : Config) (match_ : Re.Match) : result str :=
  let full_match := Re.group0 match_ in
  let href := Re.group1 match_ in
  parsed_netloc ← UrlParse.netloc href;
  if negb (bool_decide (parsed_netloc = []))
     && negb (bool_decide (parsed_netloc ∈ [py "localhost"; py "127.0.0.1"]))
  then
    let site_url := default (PyStr []) (config !! "site_url"%string) in
    if truthy site_url
    then
      (* a true [site_url] is a string *)
      site_domain ← UrlParse.netloc (match site_url with PyStr s => s | PyNone => [] end);
      if negb (bool_decide (parsed_netloc = site_domain))
      then Ok (add_attributes full_match)
      else Ok full_match
    else Ok full_match
  else Ok full_match.

(** [on_page_content(html, page, config, files)]. *)
Definition on_page_content (html : str) (page : Page) (config : Config)
    (files : Files) : result str :=
  Re.sub link_pattern (replace_external_link config) html.

(** [on_config(config)]. *)
Definition on_config (config : Config) : Config := config.

End Hook.

(** The contract of the specification, [annotate(html, siteURL)]: the hook
    run with a configuration whose [site_url] is [siteURL]. *)
Definition annotate (html siteURL : str) : result str :=
  on_page_content html () {[ "site_url"%string := PyStr siteURL ]} ().

(** ** Notions used in the statements *)

(** The link target [href] is one the hook rewrites under [config]: its
    network location parses, is not empty, is none of the two loopback
    names, and differs from the one of a non-empty [site_url]. *)
Definition is_external (config : Config) (href : str) : Prop :=
  exists netloc site site_domain,
    UrlParse.netloc href = Ok netloc
    /\ netloc <> []
    /\ netloc <> py "localhost" /\ netloc <> py "127.0.0.1"
    /\ config !! "site_url"%string = Some (PyStr site)
    /\ site <> []
    /\ UrlParse.netloc site = Ok site_domain
    /\ netloc <> site_domain.

(** Every tag the pass matches holds [href=] exactly once. *)
Definition single_href (html : str) : bool :=
  forallb (fun m => Nat.eqb (PyStr.count href_eq (Re.group0 m)) 1)
          (Re.finditer link_pattern html).


(** The part of [link_pattern] from the opening quote on, and the part
    from [href=] on. *)
Definition value_pattern : Re.pattern :=
  [Re.Cls is_quote; Re.GOpen; Re.Plus not_quote; Re.GClose; Re.Cls is_quote;
   Re.Star not_gt; Re.Lit ">"].
Definition href_pattern : Re.pattern :=
  [Re.Lit "h"; Re.Lit "r"; Re.Lit "e"; Re.Lit "f"; Re.Lit "="] ++ value_pattern.

(** The text of an anchor tag as [link_pattern] reads it: the white space
    [w], the attributes [A] before [href=], the quotes [q1] and [q2]
    around the value [V], and the attributes [B] up to the closing [>]. *)
Definition anchor (w : ascii) (A : str) (q1 : ascii) (V : str) (q2 : ascii)
    (B : str) : str :=
  "<" :: "a" :: w :: A ++ href_eq ++ q1 :: V ++ q2 :: B ++ [">"].

Definition anchor_ok (w : ascii) (A : str) (q1 : ascii) (V : str) (q2 : ascii)
    (B : str) : Prop :=
  Re.is_space w = true /\ forallb not_gt A = true
  /\ is_quote q1 = true /\ V <> [] /\ forallb not_quote V = true
  /\ is_quote q2 = true /\ forallb not_gt B = true.

(** Two strings agree as far as both go. *)
Fixpoint compat (a b : str) : bool :=
  match a, b with
  | x :: a', y :: b' => Ascii.eqb x y && compat a' b'
  | _, _ => true
  end.

(** [x] agrees with no non-empty suffix of [a]: no occurrence of [x]
    starts inside [a], whatever follows [a]. *)
Fixpoint clashes (x a : str) : bool :=
  match a with
  | [] => true
  | _ :: a' => negb (compat x a) && clashes x a'
  end.

(** ** Sample pages *)

(** A double-quoted attribute value. *)
Definition q (s : string) : str := [dquote] ++ py s ++ [dquote].

(** The two directives, as they read in an annotated tag. *)
Definition target_blank : str := py "target=" ++ q "_blank" ++ py " ".
Definition rel_noopener : str := py "rel=" ++ q "noopener noreferrer" ++ py " ".

Definition docs_site : str := py "https://docs.example.com".

Definition external_link : str :=
  py "<a href=" ++ q "https://other.org/x" ++ py ">x</a>".
Definition external_link_annotated : str :=
  py "<a target=" ++ q "_blank" ++ py " rel=" ++ q "noopener noreferrer"
  ++ py " href=" ++ q "https://other.org/x" ++ py ">x</a>".

Definition nofollow_link : str :=
  py "<a href=" ++ q "https://other.org/x" ++ py " rel=" ++ q "nofollow" ++ py ">x</a>".
Definition nofollow_link_annotated : str :=
  py "<a target=" ++ q "_blank" ++ py " href=" ++ q "https://other.org/x"
  ++ py " rel=" ++ q "nofollow" ++ py ">x</a>".



Definition localhost_link : str :=
  py "<a href=" ++ q "http://localhost:8000/x" ++ py ">l</a>".
Definition localhost_link_annotated : str :=
  py "<a target=" ++ q "_blank" ++ py " rel=" ++ q "noopener noreferrer"
  ++ py " href=" ++ q "http://localhost:8000/x" ++ py ">l</a>".

Definition bare_localhost_link : str :=
  py "<a href=" ++ q "http://localhost/x" ++ py ">l</a>".


(** An anchor whose [href] value holds [href=] a second time. *)
Definition nested_href_link : str :=
  py "<a href=" ++ q "http://x.org/?href=1" ++ py ">".
Definition nested_href_link_annotated : str :=
  py "<a " ++ target_blank ++ rel_noopener ++ py "href="
  ++ [dquote] ++ py "http://x.org/?" ++ target_blank ++ rel_noopener
  ++ py "href=1" ++ [dquote] ++ py ">".

(** An anchor whose [href] value holds [href=], a [>] and [target=]. *)
Definition reparsed_link : str :=
  py "<a href=" ++ q "http://x.org/href=>target=" ++ py ">".

(** What the hook inserts in front of [href=], by the directives the tag
    holds already. *)
Definition inserted (full : str) : str :=
  (if PyStr.contains (py "target=") full then [] else target_blank)
  ++ (if PyStr.contains (py "rel=") full then [] else rel_noopener).

(** The configuration of the samples, the same with one more setting,
    and the matches of the sample tags. *)
Definition docs_config : gmap string pyval :=
  {[ "site_url"%string := PyStr docs_site ]}.
Definition themed_config : gmap string pyval :=
  <[ "theme"%string := PyStr (py "material") ]> docs_config.
Definition external_match : Re.Match :=
  {| Re.group0 := py "<a href=" ++ q "https://other.org/x" ++ py ">";
     Re.group1 := py "https://other.org/x" |}.
Definition nofollow_match : Re.Match :=
  {| Re.group0 := py "<a href=" ++ q "https://other.org/x" ++ py " rel="
                  ++ q "nofollow" ++ py ">";
     Re.group1 := py "https://other.org/x" |}.
Definition nested_href_match : Re.Match :=
  {| Re.group0 := nested_href_link; Re.group1 := py "http://x.org/?href=1" |}.

(** ** Notions and samples of the further properties *)

(** [directives_added s out]: [out] is [s] with [target], [rel] or both
    put directly in front of some of the [href=] of [s]; no character of
    [s] is dropped or changed and nothing else is added. *)
Inductive directives_added : str -> str -> Prop :=
| da_nil : directives_added [] []
| da_copy c s out :
    directives_added s out -> directives_added (c :: s) (c :: out)
| da_href ins s out :
    ins ∈ [target_blank; rel_noopener; target_blank ++ rel_noopener] ->
    directives_added s out ->
    directives_added (href_eq ++ s) (ins ++ href_eq ++ out).

(** No two slashes follow each other in [s], also not across TAB, CR or
    LF, which [urlparse] drops. *)
Definition no_double_slash (s : str) : bool :=
  negb (PyStr.contains (py "//")
          (List.filter (fun c => negb (UrlParse.is_unsafe_url_byte c)) s)).

(** A page without anchors, and a page whose anchors are relative. *)
Definition plain_page : str := py "<p>An <b>abstract</b> of the page.</p>".
Definition relative_page : str :=
  py "<p>See <a href=" ++ q "../page/" ++ py ">the page</a>," ++ ["010"]
  ++ py "or <a class='x' href='#top'>the top</a>.</p>".

(** The match of the loopback link without port, and the tag of the
    external link once rewritten. *)
Definition bare_localhost_match : Re.Match :=
  {| Re.group0 := py "<a href=" ++ q "http://localhost/x" ++ py ">";
     Re.group1 := py "http://localhost/x" |}.
Definition external_tag_annotated : str :=
  py "<a " ++ target_blank ++ rel_noopener ++ py "href="
  ++ q "https://other.org/x" ++ py ">".

(** A tag with a relative [href] and, behind it, a [data-href] that
    holds an absolute address. *)
Definition data_href_attrs : str := py "href=" ++ q "/local" ++ py " data-".
Definition data_href_link : str :=
  anchor " " data_href_attrs dquote (py "http://x.org/") dquote [].

(** * Properties *)

Import PyStr.

(** ** The library functions on samples *)

(** The greedy [[^>]*] leaves the last [href=] of the tag to the rest of
    the pattern, and the two quotes of a value need not be the same. *)
Example match_takes_last_href :
  Re.match_ link_pattern (py "<a href='x' data-href='y'>z")
  = Some {| Re.group0 := py "<a href='x' data-href='y'>"; Re.group1 := py "y" |}.
Proof. reflexivity. Qed.

Example match_mixed_quotes :
  Re.group1 <$> Re.match_ link_pattern (py "<a href='x" ++ [dquote] ++ py ">")
  = Some (py "x").
Proof. reflexivity. Qed.

Example match_needs_space : Re.match_ link_pattern (py "<ahref='x'>") = None.
Proof. reflexivity. Qed.

Example match_needs_value : Re.match_ link_pattern (py "<a href=''>") = None.
Proof. reflexivity. Qed.

Example sub_leaves_the_rest :
  Re.sub link_pattern (fun m => Ok (py "[" ++ Re.group1 m ++ py "]"))
    (py "a <a href='x'> b <a  href='y' id='i'> c")
  = Ok (py "a [x] b [y] c").
Proof. reflexivity. Qed.

Example replace_all_occurrences :
  replace (py "ab") (py "X") (py "abcabab") = py "XcXX"
  /\ replace (py "aa") (py "X") (py "aaa") = py "Xa"
  /\ count (py "aa") (py "aaaa") = 2.
Proof. repeat split; reflexivity. Qed.

Example netloc_samples :
  UrlParse.netloc (py "https://other.org/x") = Ok (py "other.org")
  /\ UrlParse.netloc (py "//cdn.example.com/lib.js") = Ok (py "cdn.example.com")
  /\ UrlParse.netloc (py "HTTP://User@Host:80?q") = Ok (py "User@Host:80")
  /\ UrlParse.netloc (py "page.html#top") = Ok []
  /\ UrlParse.netloc (py "1http://a/") = Ok []
  /\ UrlParse.netloc (py "http://[::1]:8000/") = Ok (py "[::1]:8000")
  /\ UrlParse.netloc (py "http://[::ffff:1.2.3.4]/") = Ok (py "[::ffff:1.2.3.4]")
  /\ UrlParse.netloc (py "http://[v1.x]/") = Ok (py "[v1.x]")
  /\ UrlParse.netloc (py "http://[zz]/") = Raise ValueError
  /\ UrlParse.netloc (py "http://[1.2.3.4]/") = Raise ValueError
  /\ UrlParse.netloc (py "http://a]/") = Raise ValueError.
Proof. repeat split; reflexivity. Qed.

(** [on_config] hands the configuration back. *)
Lemma on_config_identity (config : gmap string pyval) : on_config config = config.
Proof. reflexivity. Qed.

(** ** Strings *)

Lemma startswith_app (p t : str) : startswith p (p ++ t) = true.
Proof.
  induction p as [|a p IH]; simpl; [done|].
  rewrite Ascii.eqb_refl. done.
Qed.

Lemma startswith_spec (p s : str) :
  startswith p s = true <-> exists t, s = p ++ t.
Proof.
  split.
  - revert s. induction p as [|a p IH]; intros s H.
    + by exists s.
    + destruct s as [|b s]; simpl in H; [done|].
      apply andb_true_iff in H as [Hab H].
      apply Ascii.eqb_eq in Hab. subst b.
      destruct (IH _ H) as [t ->]. by exists t.
  - intros [t ->]. apply startswith_app.
Qed.

Lemma contains_unfold (x s : str) :
  contains x s = startswith x s || match s with [] => false | _ :: s' => contains x s' end.
Proof. by destruct s. Qed.

Lemma contains_spec (x s : str) :
  contains x s = true <-> exists a b, s = a ++ x ++ b.
Proof.
  split.
  - induction s as [|c s IH]; simpl; intros H.
    + rewrite orb_false_r in H. apply startswith_spec in H as [t Ht].
      exists [], t. done.
    + apply orb_true_iff in H as [H|H].
      * apply startswith_spec in H as [t Ht]. by exists [], t.
      * destruct (IH H) as (a & b & ->). by exists (c :: a), b.
  - intros (a & b & ->). induction a as [|c a IH].
    + rewrite app_nil_l, contains_unfold, startswith_app. done.
    + rewrite <- app_comm_cons, contains_unfold, IH. apply orb_true_r.
Qed.

Lemma replace_from_skip (old new : str) (k : nat) (s : str) :
  replace_from old new k s = replace_from old new 0 (drop k s).
Proof.
  revert k. induction s as [|c s IH]; intros k.
  - by rewrite drop_nil.
  - destruct k as [|k]; [done|]. simpl. apply IH.
Qed.

Lemma replace_unfold (old new s : str) :
  old <> [] ->
  replace old new s =
    if startswith old s then new ++ replace old new (drop (length old) s)
    else match s with
         | [] => []
         | c :: s' => c :: replace old new s'
         end.
Proof.
  intros Hold. unfold replace. destruct s as [|c s].
  - destruct old; [done|]. done.
  - cbn [replace_from]. destruct (startswith old (c :: s)); [|done].
    rewrite replace_from_skip. destruct old; [done|]. done.
Qed.

Lemma startswith_compat (y a r : str) :
  startswith y (a ++ r) = true -> compat y a = true.
Proof.
  revert a. induction y as [|c y IH]; intros [|d a]; simpl; try done.
  intros [-> H]%andb_true_iff. by rewrite (IH _ H).
Qed.

Lemma contains_app_clashes (x a r : str) :
  clashes x a = true -> contains x (a ++ r) = contains x r.
Proof.
  induction a as [|c a IH]; [done|]. cbn [clashes].
  intros [Hc Ha]%andb_true_iff. rewrite <- app_comm_cons, contains_unfold, IH by done.
  destruct (startswith x (c :: a ++ r)) eqn:E; [|done].
  apply (startswith_compat x (c :: a) r) in E. by rewrite E in Hc.
Qed.

Lemma contains_app_l (x a r : str) :
  contains x a = true -> contains x (a ++ r) = true.
Proof.
  intros (u & v & ->)%contains_spec. apply contains_spec.
  exists u, (v ++ r). by rewrite <- !app_assoc.
Qed.

Lemma contains_app_r (x a r : str) :
  contains x r = true -> contains x (a ++ r) = true.
Proof.
  intros (u & v & ->)%contains_spec. apply contains_spec.
  exists (a ++ u), v. by rewrite <- !app_assoc.
Qed.

Lemma startswith_app_cases (y p z : str) :
  startswith y (p ++ z) = true ->
  startswith y p = true \/ exists y2, y = p ++ y2 /\ startswith y2 z = true.
Proof.
  revert p. induction y as [|a y IH]; intros p H; [by left|].
  destruct p as [|b p]; [right; by exists (a :: y)|].
  simpl in H. apply andb_true_iff in H as [Hab H].
  apply Ascii.eqb_eq in Hab as ->.
  destruct (IH _ H) as [Hl|(y2 & -> & Hr)].
  - left. simpl. by rewrite Ascii.eqb_refl.
  - right. by exists y2.
Qed.

Lemma href_eq_cons : href_eq = ["h"; "r"; "e"; "f"; "="].
Proof. reflexivity. Qed.

(** [href=] has no border: none of its proper suffixes starts it again. *)
Lemma href_eq_borderless (y1 y2 r : str) :
  href_eq = y1 ++ y2 -> y1 <> [] -> y2 <> [] -> startswith y2 (href_eq ++ r) = false.
Proof.
  rewrite href_eq_cons. intros E H1 H2.
  do 6 (destruct y1 as [|? y1]; simplify_eq/=; try done).
Qed.

Lemma startswith_href_eq_app (p rest : str) :
  startswith href_eq (p ++ href_eq ++ rest) = true ->
  p = [] \/ startswith href_eq p = true.
Proof.
  intros [H|(y2 & E & H)]%startswith_app_cases; [by right|].
  destruct p as [|c p]; [by left|]. right.
  destruct y2 as [|d y2].
  - rewrite app_nil_r in E. rewrite E. rewrite <- (app_nil_r (c :: p)) at 2.
    apply startswith_app.
  - by rewrite (href_eq_borderless (c :: p) (d :: y2) rest) in H.
Qed.

Lemma contains_false_startswith (x s : str) :
  contains x s = false -> startswith x s = false.
Proof. rewrite contains_unfold. by intros [? _]%orb_false_iff. Qed.

Lemma contains_false_tail (x : str) c (s : str) :
  contains x (c :: s) = false -> contains x s = false.
Proof. rewrite contains_unfold. by intros [_ ?]%orb_false_iff. Qed.

(** Without an occurrence of [href=], [replace] changes nothing. *)
Lemma replace_absent (new s : str) :
  contains href_eq s = false -> replace href_eq new s = s.
Proof.
  induction s as [|c s IH]; intros H; rewrite replace_unfold by done.
  - done.
  - rewrite (contains_false_startswith _ _ H).
    by rewrite IH by (by eapply contains_false_tail).
Qed.

(** The first occurrence of [href=] is replaced and the scan resumes
    after it. *)
Lemma replace_first (new p rest : str) :
  contains href_eq p = false ->
  replace href_eq new (p ++ href_eq ++ rest) = p ++ new ++ replace href_eq new rest.
Proof.
  induction p as [|c p IH]; intros Hp; rewrite replace_unfold by done.
  - by rewrite app_nil_l, startswith_app, drop_app_length.
  - destruct (startswith href_eq ((c :: p) ++ href_eq ++ rest)) eqn:E.
    + apply startswith_href_eq_app in E as [E|E]; [done|].
      by rewrite (contains_false_startswith _ _ Hp) in E.
    + rewrite <- !app_comm_cons. f_equal. apply IH. by eapply contains_false_tail.
Qed.

Lemma replace_join (new : str) (parts : list str) :
  Forall (fun p => contains href_eq p = false) parts ->
  replace href_eq new (join href_eq parts) = join new parts.
Proof.
  induction 1 as [|p ps Hp Hps IH]; [done|].
  destruct ps as [|p' ps].
  - by apply replace_absent.
  - change (join href_eq (p :: p' :: ps)) with (p ++ href_eq ++ join href_eq (p' :: ps)).
    change (join new (p :: p' :: ps)) with (p ++ new ++ join new (p' :: ps)).
    by rewrite replace_first, IH.
Qed.

Lemma compat_sym (a b : str) : compat a b = compat b a.
Proof.
  revert b. induction a as [|x a IH]; intros [|y b]; simpl; try done.
  by rewrite IH, Ascii.eqb_sym.
Qed.

Lemma clash_startswith (y a r : str) :
  compat a y = false -> startswith y (a ++ r) = false.
Proof.
  intros H. destruct (startswith y (a ++ r)) eqn:E; [|done].
  apply startswith_compat in E. by rewrite compat_sym, H in E.
Qed.

(** A string that no [href=] can start in, and that cannot start the
    replacement text, starts the rewritten text exactly when it starts the
    original. *)
Lemma startswith_replace (new y : str) :
  clashes href_eq y = true -> clashes new y = true ->
  forall s, startswith y (replace href_eq new s) = startswith y s.
Proof.
  induction y as [|a y IH]; intros Hh Hn s; [done|].
  cbn [clashes] in Hh, Hn.
  apply andb_true_iff in Hh as [Hh Hh'], Hn as [Hn Hn'].
  apply negb_true_iff in Hh, Hn.
  rewrite replace_unfold by done.
  destruct (startswith href_eq s) eqn:E.
  - apply startswith_spec in E as [t ->].
    by rewrite !clash_startswith.
  - destruct s as [|c s]; [done|]. simpl. by rewrite IH.
Qed.

Lemma clashes_tail (x : str) c (y : str) :
  clashes x (c :: y) = true -> clashes x y = true.
Proof. cbn [clashes]. by intros [_ ?]%andb_true_iff. Qed.

(** The occurrences of [x] are those of the original text, when [x]
    overlaps neither [href=] nor the replacement text. *)
Lemma contains_replace (new x : str) :
  clashes href_eq x = true -> clashes new x = true ->
  clashes x new = true -> clashes x href_eq = true ->
  forall s, contains x (replace href_eq new s) = contains x s.
Proof.
  intros Hhx Hnx Hxn Hxh s.
  remember (length s) as n eqn:Hn. revert s Hn.
  induction n as [n IH] using lt_wf_ind. intros s ->.
  rewrite replace_unfold by done.
  destruct (startswith href_eq s) eqn:E.
  - apply startswith_spec in E as [t ->].
    rewrite drop_app_length, !contains_app_clashes by done.
    apply (IH (length t)); [|done]. rewrite length_app. simpl. lia.
  - destruct s as [|c s]; [done|].
    rewrite (contains_unfold x (c :: s)), contains_unfold.
    rewrite (IH (length s)) by (simpl; lia || done).
    f_equal. destruct x as [|d x]; [done|]. simpl.
    by rewrite startswith_replace by by eapply clashes_tail.
Qed.

(** Where [href=] occurs, the rewritten text holds what the replacement
    text holds. *)
Lemma contains_replace_intro (new x s : str) :
  contains x new = true -> contains href_eq s = true ->
  contains x (replace href_eq new s) = true.
Proof.
  intros Hx. induction s as [|c s IH]; intros H; [done|].
  rewrite replace_unfold by done.
  destruct (startswith href_eq (c :: s)) eqn:E.
  - by apply contains_app_l.
  - rewrite contains_unfold, E in H. rewrite contains_unfold, IH by done.
    apply orb_true_r.
Qed.

Abbreviation target_eq := (py "target=").
Abbreviation rel_eq := (py "rel=").

Lemma rel_after_target (s : str) :
  contains rel_eq (replace href_eq target_blank_href s) = contains rel_eq s.
Proof. by apply contains_replace. Qed.

Lemma target_after_rel (s : str) :
  contains target_eq (replace href_eq rel_noopener_href s) = contains target_eq s.
Proof. by apply contains_replace. Qed.

Lemma target_inserted (s : str) :
  contains href_eq s = true ->
  contains target_eq (replace href_eq target_blank_href s) = true.
Proof. by apply contains_replace_intro. Qed.

Lemma rel_inserted (s : str) :
  contains href_eq s = true ->
  contains rel_eq (replace href_eq rel_noopener_href s) = true.
Proof. by apply contains_replace_intro. Qed.

Lemma href_after_replace (new s : str) :
  contains href_eq new = true ->
  contains href_eq (replace href_eq new s) = contains href_eq s.
Proof.
  intros Hn. destruct (contains href_eq s) eqn:E.
  - by apply contains_replace_intro.
  - by rewrite replace_absent.
Qed.

(** What the two guarded calls do, by the directives the tag holds. *)
Lemma add_attributes_cases (full : str) :
  add_attributes full =
    let with_target :=
      if contains target_eq full then full
      else replace href_eq target_blank_href full in
    if contains rel_eq full then with_target
    else replace href_eq rel_noopener_href with_target.
Proof.
  unfold add_attributes. cbv zeta.
  destruct (contains target_eq full); cbn [negb].
  - by destruct (contains rel_eq full).
  - rewrite rel_after_target. by destruct (contains rel_eq full).
Qed.

Lemma add_attributes_absent (full : str) :
  contains href_eq full = false -> add_attributes full = full.
Proof.
  intros H. rewrite add_attributes_cases.
  destruct (contains target_eq full), (contains rel_eq full);
    cbv beta iota zeta; by rewrite ?(replace_absent _ full).
Qed.

Lemma add_attributes_idem (full : str) :
  add_attributes (add_attributes full) = add_attributes full.
Proof.
  destruct (contains href_eq full) eqn:Eh.
  - assert (contains target_eq (add_attributes full) = true
            /\ contains rel_eq (add_attributes full) = true) as [Ht Hr].
    { rewrite add_attributes_cases.
      destruct (contains target_eq full) eqn:Et, (contains rel_eq full) eqn:Er;
        cbv beta iota zeta.
      - done.
      - by rewrite target_after_rel, rel_inserted.
      - by rewrite rel_after_target, target_inserted.
      - rewrite target_after_rel, target_inserted by done. split; [done|].
        apply rel_inserted. by rewrite href_after_replace. }
    rewrite (add_attributes_cases (add_attributes full)). cbv zeta.
    by rewrite Ht, Hr.
  - by rewrite !(add_attributes_absent full).
Qed.

(** ** The matcher *)

Ltac norm_app := repeat (progress (rewrite <- ?app_assoc; cbn [app])).
Ltac norm_len :=
  repeat (progress (rewrite ?length_app; cbn [length]));
  change (length href_eq) with 5 in *.

Lemma exec_lit c p s st r :
  Re.exec (Re.Lit c :: p) s st = Some r ->
  exists s', s = c :: s' /\ Re.exec p s' (Re.advance st) = Some r.
Proof.
  destruct s as [|x s]; simpl; [done|].
  destruct (Ascii.eqb_spec x c) as [->|]; [|done]. eauto.
Qed.

Lemma exec_cls f p s st r :
  Re.exec (Re.Cls f :: p) s st = Some r ->
  exists x s', s = x :: s' /\ f x = true /\ Re.exec p s' (Re.advance st) = Some r.
Proof.
  destruct s as [|x s]; simpl; [done|].
  destruct (f x) eqn:E; [|done]. eauto.
Qed.

Lemma star_sound f k s st r :
  Re.star f k s st = Some r ->
  exists a b, s = a ++ b /\ forallb f a = true
    /\ k b (Re.MState (Re.pos st + length a) (Re.gstart st) (Re.gend st)) = Some r.
Proof.
  revert st. induction s as [|x s IH]; intros st H.
  - exists [], []. destruct st. simpl in *. by rewrite Nat.add_0_r.
  - simpl in H. destruct (f x) eqn:E.
    + destruct (Re.star f k s (Re.advance st)) as [r0|] eqn:E0.
      * simplify_eq. destruct (IH _ E0) as (a & b & -> & Ha & Hk).
        exists (x :: a), b. simpl in *. rewrite E, Ha.
        by replace (Re.pos st + S (length a)) with (S (Re.pos st + length a)) by lia.
      * exists [], (x :: s). destruct st. simpl in *. by rewrite Nat.add_0_r.
    + exists [], (x :: s). destruct st. simpl in *. by rewrite Nat.add_0_r.
Qed.

Lemma star_weak f k s st :
  is_Some (k s st) -> is_Some (Re.star f k s st).
Proof.
  intros H. destruct s as [|x s]; simpl; [done|].
  destruct (f x); [|done]. by destruct (Re.star f k s (Re.advance st)).
Qed.

Lemma star_complete f k a b st :
  forallb f a = true ->
  is_Some (k b (Re.MState (Re.pos st + length a) (Re.gstart st) (Re.gend st))) ->
  is_Some (Re.star f k (a ++ b) st).
Proof.
  revert st. induction a as [|x a IH]; intros st Ha Hk.
  - apply star_weak. destruct st. simpl in *. by rewrite Nat.add_0_r in Hk.
  - simpl in Ha. apply andb_true_iff in Ha as [Hx Ha]. simpl. rewrite Hx.
    destruct (IH (Re.advance st) Ha) as [r Hr].
    + cbn [Re.advance Re.pos Re.gstart Re.gend length] in *.
      by replace (S (Re.pos st) + length a) with (Re.pos st + S (length a)) by lia.
    + by rewrite Hr.
Qed.

(** What [value_pattern] accepts. *)
Lemma exec_value_sound v st r :
  Re.exec value_pattern v st = Some r ->
  exists q1 V q2 B rest,
    v = q1 :: V ++ q2 :: B ++ ">" :: rest
    /\ is_quote q1 = true /\ V <> [] /\ forallb not_quote V = true
    /\ is_quote q2 = true /\ forallb not_gt B = true
    /\ r = Re.MState (Re.pos st + (3 + length V + length B))
                     (S (Re.pos st)) (S (Re.pos st) + length V).
Proof.
  unfold value_pattern. intros H.
  apply exec_cls in H as (q1 & v1 & -> & Hq1 & H).
  cbn [Re.exec] in H.
  destruct v1 as [|x v1]; [done|]. destruct (not_quote x) eqn:Hx; [|done].
  apply star_sound in H as (V & v2 & -> & HV & H).
  cbn [Re.exec] in H.
  destruct v2 as [|q2 v2]; [done|]. destruct (is_quote q2) eqn:Hq2; [|done].
  apply star_sound in H as (B & v3 & -> & HB & H).
  destruct v3 as [|y rest]; [done|].
  destruct (Ascii.eqb_spec y ">") as [->|]; [|done]. simplify_eq.
  exists q1, (x :: V), q2, B, rest.
  cbn [forallb]. rewrite Hx, HV. repeat split; try done.
  unfold Re.advance. cbn [Re.pos Re.gstart Re.gend length]. f_equal; lia.
Qed.

Lemma exec_value_complete q1 V q2 B rest st :
  is_quote q1 = true -> V <> [] -> forallb not_quote V = true ->
  is_quote q2 = true -> forallb not_gt B = true ->
  is_Some (Re.exec value_pattern (q1 :: V ++ q2 :: B ++ ">" :: rest) st).
Proof.
  intros Hq1 HV HVq Hq2 HB. unfold value_pattern. cbn [Re.exec]. rewrite Hq1.
  destruct V as [|x V]; [done|]. simpl in HVq.
  apply andb_true_iff in HVq as [Hx HVq]. cbn [app]. rewrite Hx.
  apply star_complete; [done|]. cbn [Re.exec]. rewrite Hq2.
  apply star_complete; [done|]. cbn [Re.exec]. by rewrite Ascii.eqb_refl.
Qed.

Lemma exec_href_sound v st r :
  Re.exec href_pattern v st = Some r ->
  exists q1 V q2 B rest,
    v = href_eq ++ q1 :: V ++ q2 :: B ++ ">" :: rest
    /\ is_quote q1 = true /\ V <> [] /\ forallb not_quote V = true
    /\ is_quote q2 = true /\ forallb not_gt B = true
    /\ r = Re.MState (Re.pos st + (8 + length V + length B))
                     (Re.pos st + 6) (Re.pos st + 6 + length V).
Proof.
  unfold href_pattern. cbn [app]. intros H.
  do 5 (apply exec_lit in H as (? & -> & H)).
  apply exec_value_sound in H as (q1 & V & q2 & B & rest & -> & ? & ? & ? & ? & ? & ->).
  exists q1, V, q2, B, rest. repeat split; try done. simpl. f_equal; lia.
Qed.

Lemma exec_href_complete q1 V q2 B rest st :
  is_quote q1 = true -> V <> [] -> forallb not_quote V = true ->
  is_quote q2 = true -> forallb not_gt B = true ->
  is_Some (Re.exec href_pattern (href_eq ++ q1 :: V ++ q2 :: B ++ ">" :: rest) st).
Proof.
  intros. unfold href_pattern. cbn [app Re.exec href_eq py String.list_ascii_of_string].
  rewrite !Ascii.eqb_refl. by apply exec_value_complete.
Qed.

Lemma is_space_not_gt w : Re.is_space w = true -> not_gt w = true.
Proof.
  intros H. unfold not_gt. destruct (Ascii.eqb_spec w ">") as [->|]; [done|done].
Qed.

Lemma forallb_space_not_gt a : forallb Re.is_space a = true -> forallb not_gt a = true.
Proof.
  induction a as [|x a IH]; [done|]. simpl.
  intros [Hx Ha]%andb_true_iff. by rewrite is_space_not_gt, IH.
Qed.

Lemma link_pattern_eq :
  link_pattern = Re.Lit "<" :: Re.Lit "a" :: Re.Plus Re.is_space :: Re.Star not_gt :: href_pattern.
Proof. reflexivity. Qed.

(** A match of [link_pattern] is an anchor tag at the start of the text,
    and its group 1 is the value of that tag. *)
Lemma match_sound s m :
  Re.match_ link_pattern s = Some m ->
  exists w A q1 V q2 B rest,
    s = anchor w A q1 V q2 B ++ rest /\ anchor_ok w A q1 V q2 B
    /\ Re.group0 m = anchor w A q1 V q2 B /\ Re.group1 m = V.
Proof.
  unfold Re.match_. rewrite link_pattern_eq.
  destruct (Re.exec _ s _) as [st|] eqn:H; [|done]. intros [= <-].
  do 2 (apply exec_lit in H as (? & -> & H)).
  cbn [Re.exec] in H. destruct x0 as [|w s]; [done|].
  destruct (Re.is_space w) eqn:Hw; [|done].
  apply star_sound in H as (a1 & s1 & -> & Ha1 & H).
  cbn [Re.exec] in H.
  apply star_sound in H as (a2 & s2 & -> & Ha2 & H).
  apply exec_href_sound in H as (q1 & V & q2 & B & rest & -> & ? & ? & ? & ? & ? & ->).
  exists w, (a1 ++ a2), q1, V, q2, B, rest. cbn [Re.pos Re.gstart Re.gend Re.advance].
  assert (forallb not_gt (a1 ++ a2) = true) as HA.
  { rewrite forallb_app, Ha2, forallb_space_not_gt; done. }
  split; [|split; [done|]].
  - unfold anchor. by norm_app.
  - set (tag := anchor w (a1 ++ a2) q1 V q2 B).
    set (full := "<" :: "a" :: w :: a1 ++ a2 ++ href_eq ++ q1 :: V ++ q2 :: B ++ ">" :: rest).
    assert (full = tag ++ rest) as ->.
    { unfold full, tag, anchor. by norm_app. }
    assert (length tag = 2 + 1 + length a1 + length a2 + (8 + length V + length B)) as Hlen.
    { unfold tag, anchor. norm_len. lia. }
    split.
    + cbn [Re.group0]. replace (_ + _ + _ + _) with (length tag) by (rewrite Hlen; lia).
      by rewrite take_app_length.
    + cbn [Re.group1].
      assert (tag ++ rest
              = ("<" :: "a" :: w :: (a1 ++ a2) ++ href_eq ++ [q1])
                ++ V ++ q2 :: B ++ ">" :: rest) as ->.
      { unfold tag, anchor. by norm_app. }
      rewrite drop_app_length' by (norm_len; lia).
      replace (_ - _) with (length V) by lia.
      by rewrite take_app_length.
Qed.

Lemma match_complete w A q1 V q2 B rest :
  anchor_ok w A q1 V q2 B ->
  is_Some (Re.match_ link_pattern (anchor w A q1 V q2 B ++ rest)).
Proof.
  intros (Hw & HA & Hq1 & HV & HVq & Hq2 & HB).
  assert (is_Some (Re.exec link_pattern (anchor w A q1 V q2 B ++ rest) (Re.MState 0 0 0))) as [st Hst].
  { rewrite link_pattern_eq. unfold anchor. cbn [Re.exec app]. rewrite !Ascii.eqb_refl, Hw.
    apply star_weak. cbn [Re.exec].
    rewrite <- app_assoc. apply star_complete; [done|].
    replace ((href_eq ++ q1 :: V ++ q2 :: B ++ [">"]) ++ rest)
      with (href_eq ++ q1 :: V ++ q2 :: B ++ ">" :: rest).
    2:{ by norm_app. }
    by apply exec_href_complete. }
  unfold Re.match_. by rewrite Hst.
Qed.

(** ** Splitting a text at the first character of a set *)

Lemma split_first (f : ascii -> bool) (t1 : str) y (t2 : str) :
  f y = true ->
  exists a y' b k,
    t1 ++ y :: t2 = a ++ y' :: b
    /\ forallb (fun c => negb (f c)) a = true /\ f y' = true /\ b = k ++ t2.
Proof.
  intros Hy. induction t1 as [|x t1 IH].
  - by exists [], y, t2, [].
  - destruct (f x) eqn:Hx.
    + exists [], x, (t1 ++ y :: t2), (t1 ++ [y]). repeat split; try done.
      by rewrite <- app_assoc.
    + destruct IH as (a & y' & b & k & E & Ha & Hy' & ->).
      exists (x :: a), y', (k ++ t2), k. cbn. rewrite E, Hx, Ha. done.
Qed.

Lemma split_unique (f : ascii -> bool) (a a' : str) y y' (b b' : str) :
  forallb (fun c => negb (f c)) a = true -> forallb (fun c => negb (f c)) a' = true ->
  f y = true -> f y' = true ->
  a ++ y :: b = a' ++ y' :: b' -> a = a' /\ y = y' /\ b = b'.
Proof.
  revert a'. induction a as [|x a IH]; intros [|x' a'] Ha Ha' Hy Hy' E;
    simplify_eq/=.
  - done.
  - apply andb_true_iff in Ha' as [Hx _]. by rewrite Hy in Hx.
  - apply andb_true_iff in Ha as [Hx _]. by rewrite Hy' in Hx.
  - apply andb_true_iff in Ha as [_ Ha], Ha' as [_ Ha'].
    destruct (IH a' Ha Ha' Hy Hy' H0) as (-> & -> & ->). done.
Qed.

Lemma forallb_app_l {A} (f : A -> bool) (a b : list A) :
  forallb f (a ++ b) = true -> forallb f a = true.
Proof. rewrite forallb_app. by intros [? _]%andb_true_iff. Qed.

Lemma forallb_app_r {A} (f : A -> bool) (a b : list A) :
  forallb f (a ++ b) = true -> forallb f b = true.
Proof. rewrite forallb_app. by intros [_ ?]%andb_true_iff. Qed.

(** ** Occurrences of [href=] *)

Lemma startswith_app_l (x a b : str) :
  startswith x a = true -> startswith x (a ++ b) = true.
Proof.
  intros [t ->]%startswith_spec. rewrite <- app_assoc. apply startswith_app.
Qed.

Lemma startswith_contains (x s : str) :
  startswith x s = true -> contains x s = true.
Proof. intros H. by rewrite contains_unfold, H. Qed.

Lemma startswith_refl (x : str) : startswith x x = true.
Proof. rewrite <- (app_nil_r x) at 2. apply startswith_app. Qed.

(** Two occurrences of [href=] are the same or do not overlap. *)
Lemma href_occ_cases (P X P' X' : str) :
  P ++ href_eq ++ X = P' ++ href_eq ++ X' ->
  (P = P' /\ X = X')
  \/ (exists k, P' = P ++ href_eq ++ k /\ X = k ++ href_eq ++ X')
  \/ (exists k, P = P' ++ href_eq ++ k /\ X' = k ++ href_eq ++ X).
Proof.
  assert (forall P X P' X' k, P' = P ++ k -> href_eq ++ X = k ++ href_eq ++ X' ->
            (k = [] /\ X = X') \/ exists k2, k = href_eq ++ k2 /\ X = k2 ++ href_eq ++ X') as Haux.
  { clear. intros P X P' X' k -> E.
    destruct k as [|c k]; [left; split; [done|]; by apply (app_inv_head href_eq) in E|].
    right. apply app_eq_inv in E as [(k2 & E1 & E2)|(h2 & E1 & E2)].
    - destruct k2 as [|d k2].
      + rewrite app_nil_r in E1. exists []. by rewrite <- E1, E2.
      + pose proof (href_eq_borderless (c :: k) (d :: k2) X' E1) as Hb.
        rewrite E2, startswith_app in Hb. by discriminate Hb.
    - exists h2. by rewrite E1, E2. }
  intros E. apply app_eq_inv in E as [(k & E1 & E2)|(k & E1 & E2)].
  - destruct (Haux _ _ _ _ _ E1 E2) as [[-> ->]|(k2 & -> & ->)].
    + left. by rewrite app_nil_r in E1.
    + right. right. by exists k2.
  - destruct (Haux _ _ _ _ _ E1 E2) as [[-> ->]|(k2 & -> & ->)].
    + left. by rewrite app_nil_r in E1.
    + right. left. by exists k2.
Qed.

Lemma clashes_suffix (b z y1 y2 : str) :
  clashes b z = true -> z = y1 ++ y2 -> y2 <> [] -> compat b y2 = false.
Proof.
  revert z. induction y1 as [|c y1 IH]; intros z Hz -> Hy2.
  - destruct y2 as [|d y2]; [done|]. cbn [app clashes] in Hz.
    apply andb_true_iff in Hz as [Hz _]. by apply negb_true_iff in Hz.
  - cbn [app clashes] in Hz. apply andb_true_iff in Hz as [_ Hz]. by eapply IH.
Qed.

(** No occurrence of [x] in [a ++ b] when there is none in [a], none in
    [b], and no proper suffix of [x] starts [b]. *)
Lemma contains_app_false (x a b : str) :
  contains x a = false -> contains x b = false ->
  clashes b (tail x) = true -> contains x (a ++ b) = false.
Proof.
  intros Ha Hb Hc. induction a as [|c a IH]; [done|].
  rewrite <- app_comm_cons, contains_unfold.
  rewrite IH by (by eapply contains_false_tail). rewrite orb_false_r.
  destruct (startswith x (c :: a ++ b)) eqn:E; [|done].
  apply (startswith_app_cases x (c :: a) b) in E as [E|(y2 & E & Hy2)].
  - by rewrite (startswith_contains _ _ E) in Ha.
  - destruct y2 as [|d y2].
    + rewrite app_nil_r in E. subst x.
      by rewrite (startswith_contains _ _ (startswith_refl _)) in Ha.
    + subst x. cbn [tail app] in Hc.
      rewrite <- (app_nil_r b) in Hy2. apply startswith_compat in Hy2.
      rewrite compat_sym, (clashes_suffix b (a ++ d :: y2) a (d :: y2)) in Hy2; done.
Qed.

Lemma count_from_skip (old : str) (k : nat) (s : str) :
  count_from old k s = count_from old 0 (drop k s).
Proof.
  revert k. induction s as [|c s IH]; intros k.
  - by rewrite drop_nil.
  - destruct k as [|k]; [done|]. simpl. apply IH.
Qed.

Lemma count_unfold (old s : str) :
  old <> [] ->
  count old s =
    if startswith old s then S (count old (drop (length old) s))
    else match s with
         | [] => 0
         | _ :: s' => count old s'
         end.
Proof.
  intros Hold. unfold count. destruct s as [|c s].
  - by destruct old.
  - cbn [count_from]. destruct (startswith old (c :: s)); [|done].
    rewrite count_from_skip. by destruct old.
Qed.

Lemma count_first (p rest : str) :
  contains href_eq p = false ->
  count href_eq (p ++ href_eq ++ rest) = S (count href_eq rest).
Proof.
  induction p as [|c p IH]; intros Hp; rewrite count_unfold by done.
  - by rewrite app_nil_l, startswith_app, drop_app_length.
  - destruct (startswith href_eq ((c :: p) ++ href_eq ++ rest)) eqn:E.
    + apply startswith_href_eq_app in E as [E|E]; [done|].
      by rewrite (contains_false_startswith _ _ Hp) in E.
    + rewrite <- !app_comm_cons. apply IH. by eapply contains_false_tail.
Qed.

Lemma contains_first (x s : str) :
  x <> [] -> contains x s = true ->
  exists a b, s = a ++ x ++ b /\ contains x a = false.
Proof.
  intros Hx. induction s as [|c s IH]; intros H.
  - destruct x; done.
  - rewrite contains_unfold in H. destruct (startswith x (c :: s)) eqn:E.
    + apply startswith_spec in E as [t ->]. exists [], t. split; [done|]. by destruct x.
    + destruct (IH H) as (a & b & -> & Ha). exists (c :: a), b. split; [done|].
      rewrite contains_unfold, Ha, orb_false_r.
      destruct (startswith x (c :: a)) eqn:E'; [|done].
      by rewrite (app_comm_cons a), (startswith_app_l _ (c :: a) (x ++ b) E') in E.
Qed.

Lemma count_present (s : str) :
  contains href_eq s = true -> count href_eq s <> 0.
Proof.
  intros (a & b & -> & Ha)%contains_first; [|done]. by rewrite count_first.
Qed.

(** A text that holds [href=] once holds it nowhere else. *)
Lemma count_one (P X : str) :
  count href_eq (P ++ href_eq ++ X) = 1 ->
  contains href_eq P = false /\ contains href_eq X = false.
Proof.
  intros H. destruct (contains href_eq P) eqn:EP.
  - apply contains_first in EP as (a & b & -> & Ha); [|done].
    rewrite <- !app_assoc, count_first in H by done.
    assert (contains href_eq (b ++ href_eq ++ X) = true) as Hc.
    { apply contains_spec. by exists b, X. }
    apply count_present in Hc. lia.
  - split; [done|]. rewrite count_first in H by done.
    destruct (contains href_eq X) eqn:EX; [|done].
    apply count_present in EX. lia.
Qed.

(** ** Anchor tags *)

Lemma is_quote_not_gt c : is_quote c = true -> not_gt c = true.
Proof.
  unfold not_gt. destruct (Ascii.eqb_spec c ">") as [->|]; done.
Qed.

Lemma not_gt_href_eq : forallb not_gt href_eq = true.
Proof. reflexivity. Qed.

(** The tag is read in one way only when [href=] occurs neither before
    the attribute nor after it. *)
Lemma anchor_unique w A q1 V q2 B rest w' A' q1' V' q2' B' rest' :
  anchor w A q1 V q2 B ++ rest = anchor w' A' q1' V' q2' B' ++ rest' ->
  anchor_ok w A q1 V q2 B -> anchor_ok w' A' q1' V' q2' B' ->
  contains href_eq A = false ->
  contains href_eq (q1 :: V ++ q2 :: B ++ [">"]) = false ->
  w = w' /\ A = A' /\ q1 = q1' /\ V = V' /\ q2 = q2' /\ B = B' /\ rest = rest'.
Proof.
  intros E (Hw & HA & Hq1 & HV & HVq & Hq2 & HB)
    (Hw' & HA' & Hq1' & HV' & HVq' & Hq2' & HB') HcA HcX.
  unfold anchor in E. cbn [app] in E. injection E as -> E.
  assert (A ++ href_eq ++ q1 :: V ++ q2 :: B ++ ">" :: rest
          = A' ++ href_eq ++ q1' :: V' ++ q2' :: B' ++ ">" :: rest') as E'.
  { revert E. by norm_app. }
  clear E. rename E' into E.
  apply href_occ_cases in E as [[-> E]|[(k & -> & E)|(k & -> & E)]].
  - injection E as -> E.
    destruct (split_unique is_quote V V' q2 q2' _ _ HVq HVq' Hq2 Hq2' E) as (-> & -> & E').
    destruct (split_unique (fun c => Ascii.eqb c ">") B B' ">" ">" _ _ HB HB' eq_refl eq_refl E')
      as (-> & _ & ->).
    done.
  - exfalso.
    assert (forallb not_gt k = true) as Hk.
    { by apply forallb_app_r, forallb_app_r in HA'. }
    assert ((q1 :: V ++ q2 :: B) ++ ">" :: rest = k ++ href_eq ++ q1' :: V' ++ q2' :: B' ++ ">" :: rest') as E'.
    { rewrite <- E. by norm_app. }
    clear E. apply app_eq_inv in E' as [(k2 & E1 & E2)|(k2 & E1 & E2)].
    + (* the occurrence starts inside the tag's tail *)
      assert (startswith href_eq (k2 ++ ">" :: rest) = true) as Hs.
      { rewrite <- E2. apply startswith_app. }
      apply startswith_app_cases in Hs as [Hs|(y2 & Ey & Hs)].
      * assert (contains href_eq (q1 :: V ++ q2 :: B ++ [">"]) = true) as Hc; [|congruence].
        replace (q1 :: V ++ q2 :: B ++ [">"]) with (k ++ k2 ++ [">"]).
        2:{ rewrite app_assoc, <- E1. by norm_app. }
        apply contains_app_r, contains_app_l. by apply startswith_contains.
      * destruct y2 as [|d y2].
        -- rewrite app_nil_r in Ey. subst k2.
           assert (contains href_eq (q1 :: V ++ q2 :: B ++ [">"]) = true) as Hc; [|congruence].
           replace (q1 :: V ++ q2 :: B ++ [">"]) with (k ++ href_eq ++ [">"]).
           2:{ rewrite app_assoc, <- E1. by norm_app. }
           apply contains_app_r, contains_app_l, startswith_contains, startswith_refl.
        -- simpl in Hs. destruct (Ascii.eqb_spec d ">") as [->|]; [|done].
           rewrite href_eq_cons in Ey.
           do 6 (destruct k2 as [|? k2]; simplify_eq/=).
    + destruct k2 as [|d k2].
      * rewrite href_eq_cons in E2. simplify_eq/=.
      * cbn [app] in E2. injection E2 as <- _. subst k.
        apply forallb_app_r in Hk. by cbn in Hk.
  - exfalso.
    assert (contains href_eq (A' ++ href_eq ++ k) = true) as Hc; [|congruence].
    apply contains_spec. by exists A', k.
Qed.

Lemma anchor_app w A q1 V q2 B :
  anchor w A q1 V q2 B = ("<" :: "a" :: w :: A) ++ href_eq ++ (q1 :: V ++ q2 :: B ++ [">"]).
Proof. unfold anchor. by norm_app. Qed.

Lemma contains_href_head (c1 c2 c3 : ascii) (A : str) :
  c1 <> "h" -> c2 <> "h" -> c3 <> "h" ->
  contains href_eq (c1 :: c2 :: c3 :: A) = contains href_eq A.
Proof.
  intros H1 H2 H3. rewrite !(contains_unfold _ (_ :: _)). rewrite href_eq_cons.
  cbn [startswith].
  destruct (Ascii.eqb_spec "h" c1) as [<-|], (Ascii.eqb_spec "h" c2) as [<-|],
    (Ascii.eqb_spec "h" c3) as [<-|]; done.
Qed.

Lemma is_space_not_h w : Re.is_space w = true -> w <> "h".
Proof. by intros H ->. Qed.

Lemma target_blank_href_eq : target_blank_href = target_blank ++ href_eq.
Proof. reflexivity. Qed.

Lemma rel_noopener_href_eq : rel_noopener_href = rel_noopener ++ href_eq.
Proof. reflexivity. Qed.

Lemma not_gt_inserted full : forallb not_gt (inserted full) = true.
Proof.
  unfold inserted. by destruct (contains _ full), (contains _ full).
Qed.

Lemma replace_once (new P X : str) :
  contains href_eq P = false -> contains href_eq X = false ->
  replace href_eq new (P ++ href_eq ++ X) = P ++ new ++ X.
Proof. intros HP HX. by rewrite replace_first, (replace_absent _ X). Qed.

Lemma add_attributes_once (P X : str) :
  contains href_eq P = false -> contains href_eq X = false ->
  add_attributes (P ++ href_eq ++ X)
  = P ++ inserted (P ++ href_eq ++ X) ++ href_eq ++ X.
Proof.
  intros HP HX. rewrite add_attributes_cases. unfold inserted. cbv zeta.
  set (full := P ++ href_eq ++ X).
  assert (contains href_eq (P ++ target_blank) = false) as HPt.
  { by apply contains_app_false. }
  destruct (contains (py "target=") full), (contains (py "rel=") full); unfold full.
  - done.
  - rewrite replace_once, rel_noopener_href_eq by done. by norm_app.
  - rewrite replace_once, target_blank_href_eq by done. by norm_app.
  - rewrite replace_once, target_blank_href_eq by done.
    replace (P ++ (target_blank ++ href_eq) ++ X)
      with ((P ++ target_blank) ++ href_eq ++ X) by (by norm_app).
    rewrite replace_once, rel_noopener_href_eq by done. by norm_app.
Qed.

(** A text that holds a quote and, further on, a [>], and that starts
    with another character, reads as a value, a quote and attributes. *)
Lemma value_ahead (v0 : ascii) (t1 : str) q (t2 t3 : str) :
  not_quote v0 = true -> is_quote q = true ->
  exists V q2 B rest,
    v0 :: t1 ++ q :: t2 ++ ">" :: t3 = V ++ q2 :: B ++ ">" :: rest
    /\ V <> [] /\ forallb not_quote V = true
    /\ is_quote q2 = true /\ forallb not_gt B = true.
Proof.
  intros Hv Hq.
  destruct (split_first is_quote (v0 :: t1) q (t2 ++ ">" :: t3) Hq)
    as (V & q2 & b & k & E & HV & Hq2 & ->).
  destruct (split_first (fun c => Ascii.eqb c ">") (k ++ t2) ">" t3 eq_refl)
    as (B & y & rest & k' & E' & HB & Hy & ->).
  apply Ascii.eqb_eq in Hy as ->.
  exists V, q2, B, (k' ++ t3). split; [|split; [|done]].
  - cbn [app] in E. rewrite E. f_equal. f_equal. rewrite <- E'. by norm_app.
  - intros ->. cbn [app] in E. injection E as -> _.
    unfold not_quote in Hv. by rewrite Hq2 in Hv.
Qed.

(** Rewriting what follows a gap starts no match inside the gap. *)
Lemma no_new_match (gap x y : str) :
  Re.match_ link_pattern (gap ++ x) = None ->
  is_Some (Re.match_ link_pattern x) ->
  Re.match_ link_pattern (gap ++ "<" :: y) = None.
Proof.
  intros Hnone [mx Hx].
  destruct (Re.match_ link_pattern (gap ++ "<" :: y)) as [m|] eqn:E; [exfalso|done].
  assert (is_Some (Re.match_ link_pattern (gap ++ x))) as [? Hsome];
    [|by rewrite Hsome in Hnone].
  apply match_sound in E as (w & A & q1 & V & q2 & B & rest & E & Hok & _).
  apply match_sound in Hx as (w1 & A1 & p1 & V1 & p2 & B1 & rest1 & -> & Hok1 & _).
  destruct Hok as (Hw & HA & Hq1 & HV & HVq & Hq2 & HB).
  destruct V as [|v0 V]; [done|]. cbn [forallb] in HVq.
  apply andb_true_iff in HVq as [Hv0 HVq].
  assert (gap ++ "<" :: y
          = ("<" :: "a" :: w :: A ++ href_eq ++ [q1; v0]) ++ V ++ q2 :: B ++ ">" :: rest) as E'.
  { rewrite E. unfold anchor. by norm_app. }
  clear E. apply app_eq_inv in E' as [(k & -> & E2)|(k & E1 & E2)].
  - (* the attribute and the first character of its value lie in the gap *)
    destruct Hok1 as (Hw1 & HA1 & Hp1 & HV1 & HVq1 & Hp2 & HB1).
    destruct (value_ahead v0 (k ++ "<" :: "a" :: w1 :: A1 ++ href_eq) p1
                (V1 ++ p2 :: B1) rest1 Hv0 Hp1)
      as (V' & q2' & B' & rest' & EV & HV' & HVq' & Hq2' & HB').
    match goal with |- is_Some (Re.match_ _ ?t) =>
      replace t with (anchor w A q1 V' q2' B' ++ rest')
    end.
    2:{ unfold anchor. norm_app. do 3 f_equal. f_equal. f_equal.
        rewrite <- EV. by norm_app. }
    by apply match_complete.
  - (* the gap ends before the value: the tag after it closes the match *)
    destruct gap as [|c0 gap]; [by apply match_complete|].
    destruct k as [|k0 k].
    { (* the gap is the whole prefix *)
      destruct Hok1 as (Hw1 & HA1 & Hp1 & HV1 & HVq1 & Hp2 & HB1).
      rewrite app_nil_r in E1. rewrite <- E1.
      destruct (value_ahead v0 ("<" :: "a" :: w1 :: A1 ++ href_eq) p1
                  (V1 ++ p2 :: B1) rest1 Hv0 Hp1)
        as (V' & q2' & B' & rest' & EV & HV' & HVq' & Hq2' & HB').
      match goal with |- is_Some (Re.match_ _ ?t) =>
        replace t with (anchor w A q1 V' q2' B' ++ rest')
      end.
      2:{ unfold anchor. norm_app. do 3 f_equal. f_equal. f_equal.
          rewrite <- EV. by norm_app. }
      by apply match_complete. }
    cbn [app] in E2. injection E2 as <- E2.
    cbn [app] in E1. injection E1 as <- E1.
    destruct gap as [|c1 gap]; [cbn [app] in E1; by injection E1|].
    cbn [app] in E1. injection E1 as <- E1.
    destruct gap as [|c2 gap].
    { cbn [app] in E1. injection E1 as -> _. done. }
    cbn [app] in E1. injection E1 as <- E1.
    assert (forallb not_gt gap = true) as Hgap.
    { assert (forallb not_gt (A ++ href_eq ++ [q1]) = true) as Hall.
      { rewrite !forallb_app, HA, not_gt_href_eq. cbn. by rewrite is_quote_not_gt. }
      assert ((A ++ href_eq ++ [q1]) ++ [v0] = gap ++ "<" :: k) as E'.
      { rewrite <- E1. by norm_app. }
      apply app_eq_inv in E' as [(k2 & Ek & _)|(k2 & Ek & Ek')].
      - rewrite Ek in Hall. by apply forallb_app_l in Hall.
      - destruct k2 as [|? k2]; [by rewrite app_nil_r in Ek; subst gap|].
        exfalso. cbn [app] in Ek'. injection Ek' as _ Ek'. by destruct k2. }
    destruct Hok1 as (Hw1 & HA1 & Hp1 & HV1 & HVq1 & Hp2 & HB1).
    match goal with |- is_Some (Re.match_ _ ?t) =>
      replace t with (anchor w (gap ++ "<" :: "a" :: w1 :: A1) p1 V1 p2 B1 ++ rest1)
    end.
    2:{ unfold anchor. by norm_app. }
    apply match_complete. repeat split; try done.
    rewrite forallb_app, Hgap. cbn [forallb]. by rewrite HA1, (is_space_not_gt w1 Hw1).
Qed.

(** ** The substitution pass *)

Lemma sub_from_skip p repl k s :
  Re.sub_from p repl k s = Re.sub_from p repl 0 (drop k s).
Proof.
  revert k. induction s as [|c s IH]; intros k.
  - by rewrite drop_nil.
  - destruct k as [|k]; [done|]. simpl. apply IH.
Qed.

Lemma finditer_from_skip p k s :
  Re.finditer_from p k s = Re.finditer_from p 0 (drop k s).
Proof.
  revert k. induction s as [|c s IH]; intros k.
  - by rewrite drop_nil.
  - destruct k as [|k]; [done|]. simpl. apply IH.
Qed.

(** Where the pattern matches, the tag is replaced and the pass goes on
    after it. *)
Lemma sub_match repl s m :
  Re.match_ link_pattern s = Some m ->
  exists rest,
    s = Re.group0 m ++ rest
    /\ Re.sub link_pattern repl s
       = (r ← repl m; o ← Re.sub link_pattern repl rest; Ok (r ++ o))
    /\ Re.finditer link_pattern s = m :: Re.finditer link_pattern rest.
Proof.
  intros Hm. pose proof Hm as Hs.
  apply match_sound in Hs as (w & A & q1 & V & q2 & B & rest & -> & _ & Hg & _).
  exists rest. rewrite Hg. split; [done|].
  unfold Re.sub, Re.finditer.
  destruct (anchor w A q1 V q2 B) as [|c t] eqn:Ea; [done|].
  cbn [app Re.sub_from Re.finditer_from]. cbn [app] in Hm. rewrite Hm, Hg.
  cbn [length Nat.pred].
  rewrite sub_from_skip, finditer_from_skip, drop_app_length. done.
Qed.

(** Where it does not, the character is copied. *)
Lemma sub_nomatch repl c s :
  Re.match_ link_pattern (c :: s) = None ->
  Re.sub link_pattern repl (c :: s)
  = (o ← Re.sub link_pattern repl s; Ok (c :: o))
  /\ Re.finditer link_pattern (c :: s) = Re.finditer link_pattern s.
Proof. intros Hm. unfold Re.sub, Re.finditer. cbn. by rewrite Hm. Qed.

(** ** The rewrite of one tag *)

Section Tag.
Context (config : gmap string pyval).

(** The three outcomes of [replace_external_link]. *)
Lemma repl_cases m :
  replace_external_link config m = Raise ValueError
  \/ replace_external_link config m = Ok (Re.group0 m)
  \/ replace_external_link config m = Ok (add_attributes (Re.group0 m)).
Proof.
  unfold replace_external_link.
  destruct (UrlParse.netloc (Re.group1 m)) as [d|[]];
    cbn [mbind result_bind]; [|by left].
  destruct (negb _ && negb _); [|by right; left].
  destruct (truthy _); [|by right; left].
  destruct (UrlParse.netloc _) as [sd|[]]; cbn [mbind result_bind]; [|by left].
  destruct (negb _); [by right; right|by right; left].
Qed.

(** The outcome is decided by the link target, and a rewritten tag is
    left as it is. *)
Lemma repl_stable m m' r :
  replace_external_link config m = Ok r ->
  Re.group1 m' = Re.group1 m -> Re.group0 m' = r ->
  replace_external_link config m' = Ok r.
Proof.
  unfold replace_external_link. intros H -> <-.
  destruct (UrlParse.netloc (Re.group1 m)) as [d|[]];
    cbn [mbind result_bind] in *; [|done].
  destruct (negb _ && negb _); [|done].
  destruct (truthy _); [|done].
  destruct (UrlParse.netloc _) as [sd|[]]; cbn [mbind result_bind] in *; [|done].
  destruct (negb _); [|done].
  injection H as <-. by rewrite add_attributes_idem.
Qed.

(** A tag that holds [href=] once is matched again after its rewrite,
    with the same link target, whatever follows it. *)
Lemma match_stable s m r rest' :
  Re.match_ link_pattern s = Some m ->
  count href_eq (Re.group0 m) = 1 ->
  replace_external_link config m = Ok r ->
  exists m', Re.match_ link_pattern (r ++ rest') = Some m'
    /\ Re.group0 m' = r /\ Re.group1 m' = Re.group1 m.
Proof.
  intros Hm Hc Hr.
  apply match_sound in Hm as (w & A & q1 & V & q2 & B & rest & -> & Hok & Hg & HV).
  rewrite Hg in Hc. rewrite anchor_app in Hc. apply count_one in Hc as [HcA HcX].
  destruct Hok as (Hw & HA & Hq1 & HVn & HVq & Hq2 & HB).
  assert (contains href_eq A = false) as HcA'.
  { rewrite contains_href_head in HcA; [done|done|done|by apply is_space_not_h]. }
  assert (exists I, r = anchor w (A ++ I) q1 V q2 B /\ forallb not_gt I = true
                    /\ contains href_eq (A ++ I) = false) as (I & -> & HI & HcI).
  { destruct (repl_cases m) as [H|[H|H]]; rewrite H in Hr;
      [discriminate|injection Hr as <-|injection Hr as <-].
    - exists []. by rewrite Hg, app_nil_r.
    - rewrite Hg, anchor_app, add_attributes_once by done.
      exists (inserted (("<" :: "a" :: w :: A) ++ href_eq ++ q1 :: V ++ q2 :: B ++ [">"])).
      split; [|split].
      + rewrite anchor_app. by norm_app.
      + apply not_gt_inserted.
      + unfold inserted.
        destruct (contains (py "target=") _), (contains (py "rel=") _);
          cbn [app]; rewrite ?app_nil_r; try done; by apply contains_app_false. }
  assert (anchor_ok w (A ++ I) q1 V q2 B) as Hok'.
  { repeat split; try done. by rewrite forallb_app, HA, HI. }
  destruct (match_complete w (A ++ I) q1 V q2 B rest' Hok') as [m' Hm'].
  exists m'. split; [done|].
  apply match_sound in Hm' as (w' & A' & q1' & V' & q2' & B' & rest'' & E & Hok'' & Hg' & HV').
  destruct (anchor_unique _ _ _ _ _ _ _ _ _ _ _ _ _ _ E Hok' Hok'' HcI HcX)
    as (-> & <- & -> & -> & -> & -> & ->).
  by rewrite Hg', HV', HV.
Qed.

End Tag.

Lemma add_attributes_head (t : str) :
  exists t', add_attributes ("<" :: t) = "<" :: t'.
Proof.
  assert (forall new u, replace href_eq new ("<" :: u) = "<" :: replace href_eq new u) as Hr.
  { intros. by rewrite replace_unfold. }
  rewrite add_attributes_cases. cbv zeta.
  destruct (contains (py "target=") ("<" :: t)), (contains (py "rel=") ("<" :: t));
    rewrite ?Hr; by eexists.
Qed.

Section Pass.
Context (config : gmap string pyval).
#[local] Abbreviation repl := (replace_external_link config).

(** The result of a pass is the text itself, or differs from it from the
    first matched tag on, where it still starts a tag. *)
Lemma first_match (s o : str) :
  Re.sub link_pattern repl s = Ok o ->
  o = s \/ exists gap x y, s = gap ++ x /\ is_Some (Re.match_ link_pattern x)
                           /\ o = gap ++ "<" :: y.
Proof.
  revert o. induction s as [|c s IH]; intros o H.
  - left. by injection H.
  - destruct (Re.match_ link_pattern (c :: s)) as [m|] eqn:Hm.
    + right. exists [], (c :: s).
      destruct (sub_match repl _ _ Hm) as (rest & Es & Hsub & _).
      rewrite Hsub in H.
      destruct (repl m) as [r|] eqn:Hr; cbn [mbind result_bind] in H; [|done].
      destruct (Re.sub link_pattern repl rest) as [o'|]; cbn [mbind result_bind] in H; [|done].
      injection H as <-.
      destruct (match_sound _ _ Hm) as (w & A & q1 & V & q2 & B & rest0 & _ & _ & Hg & _).
      assert (exists r', r = "<" :: r') as [r' ->].
      { destruct (repl_cases config m) as [E|[E|E]]; fold repl in E; rewrite E in Hr.
        - done.
        - injection Hr as <-. rewrite Hg. unfold anchor. eauto.
        - injection Hr as <-. rewrite Hg. unfold anchor. apply add_attributes_head. }
      exists (r' ++ o'). split; [done|]. split; [by rewrite Hm|done].
    + destruct (sub_nomatch repl c s Hm) as [Hsub _]. rewrite Hsub in H.
      destruct (Re.sub link_pattern repl s) as [o'|] eqn:Hs; cbn [mbind result_bind] in H; [|done].
      injection H as <-.
      destruct (IH o' eq_refl) as [->|(gap & x & y & -> & Hx & ->)]; [by left|].
      right. by exists (c :: gap), x, y.
Qed.

(** A second pass over the result of a pass changes nothing, when every
    matched tag holds [href=] once. *)
Lemma sub_idempotent (n : nat) (s o : str) :
  length s <= n -> single_href s = true ->
  Re.sub link_pattern repl s = Ok o ->
  Re.sub link_pattern repl o = Ok o.
Proof.
  revert s o. induction n as [|n IHn]; intros s o Hlen Hsingle H.
  { destruct s; [|simpl in Hlen; lia]. by injection H as <-. }
  destruct s as [|c s]; [by injection H as <-|].
  unfold single_href in Hsingle.
  destruct (Re.match_ link_pattern (c :: s)) as [m|] eqn:Hm.
  - destruct (sub_match repl _ _ Hm) as (rest & Es & Hsub & Hfind).
    rewrite Hsub in H. rewrite Hfind in Hsingle. cbn [forallb] in Hsingle.
    apply andb_true_iff in Hsingle as [Hone Hsingle]. apply Nat.eqb_eq in Hone.
    destruct (repl m) as [r|] eqn:Hr; cbn [mbind result_bind] in H; [|done].
    destruct (Re.sub link_pattern repl rest) as [o'|] eqn:Hrest;
      cbn [mbind result_bind] in H; [|done].
    injection H as <-.
    assert (length rest <= n) as Hlen'.
    { apply (f_equal length) in Es. rewrite length_app in Es. simpl in Es, Hlen.
      destruct (match_sound _ _ Hm) as (? & ? & ? & ? & ? & ? & ? & _ & _ & Hg & _).
      rewrite Hg in Es. unfold anchor in Es. simpl in Es. lia. }
    pose proof (IHn rest o' Hlen' Hsingle Hrest) as IH.
    destruct (match_stable config _ _ _ o' Hm Hone Hr) as (m' & Hm' & Hg0 & Hg1).
    destruct (sub_match repl _ _ Hm') as (rest2 & Es2 & Hsub2 & _).
    rewrite Hg0 in Es2. apply app_inv_head in Es2 as <-.
    assert (repl m' = Ok r) as Hr' by exact (repl_stable config m m' r Hr Hg1 Hg0).
    rewrite Hsub2, Hr'. cbn [mbind result_bind]. by rewrite IH.
  - destruct (sub_nomatch repl c s Hm) as [Hsub Hfind]. rewrite Hsub in H.
    rewrite Hfind in Hsingle.
    destruct (Re.sub link_pattern repl s) as [o'|] eqn:Hs; cbn [mbind result_bind] in H; [|done].
    injection H as <-.
    assert (length s <= n) as Hlen' by (simpl in Hlen; lia).
    pose proof (IHn s o' Hlen' Hsingle Hs) as IH.
    assert (Re.match_ link_pattern (c :: o') = None) as Hnone.
    { destruct (first_match s o' Hs) as [->|(gap & x & y & -> & Hx & ->)]; [done|].
      by apply (no_new_match (c :: gap) x y). }
    destruct (sub_nomatch repl c o' Hnone) as [Hsub' _].
    by rewrite Hsub', IH.
Qed.

End Pass.

(** ** Passes that change nothing, passes that differ in nothing *)

Lemma sub_from_ext p repl1 repl2 k s :
  (forall m, repl1 m = repl2 m) ->
  Re.sub_from p repl1 k s = Re.sub_from p repl2 k s.
Proof.
  intros Hext. revert k. induction s as [|c s IH]; intros k; [done|].
  destruct k as [|k]; cbn [Re.sub_from]; [|apply IH].
  destruct (Re.match_ p (c :: s)) as [m|]; [|by rewrite IH].
  rewrite Hext. destruct (repl2 m); cbn [mbind result_bind]; [|done].
  destruct (length _); by rewrite IH.
Qed.

Lemma match_group0 p s m :
  Re.match_ p s = Some m -> exists n, Re.group0 m = take n s.
Proof.
  unfold Re.match_. destruct (Re.exec p s _) as [st|]; [|done].
  intros [= <-]. by eexists.
Qed.

Lemma take_length_take {A} (n : nat) (l : list A) :
  take (length (take n l)) l = take n l.
Proof.
  rewrite length_take. destruct (decide (n <= length l)).
  - by rewrite Nat.min_l.
  - rewrite Nat.min_r by lia. by rewrite !take_ge by lia.
Qed.


(** ** Totality *)












(** ** The outcomes of [replace_external_link] *)

Section OneTag.
Context (config : gmap string pyval).

(** An external link target has its tag rewritten. *)
Lemma repl_external m :
  is_external config (Re.group1 m) ->
  replace_external_link config m = Ok (add_attributes (Re.group0 m)).
Proof.
  intros (d & site & sd & Hd & Hne & Hl1 & Hl2 & Hc & Hs & Hsd & Hdiff).
  unfold replace_external_link. rewrite Hd, Hc. cbn [mbind result_bind].
  rewrite (bool_decide_eq_false_2 _ Hne).
  rewrite bool_decide_eq_false_2.
  2:{ intros [->|[->|[]%elem_of_nil]%elem_of_cons]%elem_of_cons; done. }
  cbn [negb andb default from_option id].
  destruct site as [|c site]; [done|]. cbn [truthy]. rewrite Hsd.
  cbn [mbind result_bind]. by rewrite (bool_decide_eq_false_2 _ Hdiff).
Qed.

(** A target without network location leaves the tag as it is. *)
Lemma repl_no_netloc m :
  UrlParse.netloc (Re.group1 m) = Ok [] ->
  replace_external_link config m = Ok (Re.group0 m).
Proof. intros H. unfold replace_external_link. by rewrite H. Qed.



End OneTag.

(** The insertion in front of every [href=] of a tag. *)
Lemma replace_join_ins (ins new : str) (parts : list str) :
  contains href_eq ins = false -> clashes ins (tail href_eq) = true ->
  Forall (fun p => contains href_eq p = false) parts ->
  replace href_eq new (join (ins ++ href_eq) parts) = join (ins ++ new) parts.
Proof.
  intros Hi Hc. induction 1 as [|p ps Hp Hps IH]; [done|].
  destruct ps as [|p' ps].
  - by apply replace_absent.
  - change (join (ins ++ href_eq) (p :: p' :: ps))
      with (p ++ (ins ++ href_eq) ++ join (ins ++ href_eq) (p' :: ps)).
    change (join (ins ++ new) (p :: p' :: ps))
      with (p ++ (ins ++ new) ++ join (ins ++ new) (p' :: ps)).
    rewrite <- IH.
    replace (p ++ (ins ++ href_eq) ++ join (ins ++ href_eq) (p' :: ps))
      with ((p ++ ins) ++ href_eq ++ join (ins ++ href_eq) (p' :: ps))
      by (by rewrite <- !app_assoc).
    rewrite replace_first by (by apply contains_app_false).
    by rewrite <- !app_assoc.
Qed.

Lemma add_attributes_join (parts : list str) :
  Forall (fun p => contains href_eq p = false) parts ->
  add_attributes (join href_eq parts)
  = join (inserted (join href_eq parts) ++ href_eq) parts.
Proof.
  intros Hparts. rewrite add_attributes_cases. unfold inserted. cbv zeta.
  destruct (contains (py "target=") _), (contains (py "rel=") _); cbn [app].
  - done.
  - by rewrite replace_join.
  - by rewrite replace_join, app_nil_r.
  - rewrite replace_join by done.
    by rewrite target_blank_href_eq, replace_join_ins, rel_noopener_href_eq, <- app_assoc.
Qed.

(** ** The claims *)






(** C3, as stated, fails: a second pass over the rewritten tag matches a
    shorter tag, which holds no [target=], and rewrites it again. *)
Lemma annotate_not_idempotent :
  (h ← annotate reparsed_link docs_site; annotate h docs_site)
  <> annotate reparsed_link docs_site.
Proof. vm_compute. discriminate. Qed.

(** C3, amended: [annotate] is idempotent on the pages whose matched tags
    hold [href=] once. *)
Theorem annotate_idempotent_single_href (html siteURL : str) :
  single_href html = true ->
  (h ← annotate html siteURL; annotate h siteURL) = annotate html siteURL.
Proof.
  intros Hs. unfold annotate, on_page_content.
  destruct (Re.sub link_pattern _ html) as [o|e] eqn:H; cbn [mbind result_bind]; [|done].
  by apply (sub_idempotent _ (length html) html).
Qed.

Lemma annotate_idempotent_single_href_witness :
  (h ← annotate external_link docs_site; annotate h docs_site)
  = annotate external_link docs_site.
Proof.
  apply (annotate_idempotent_single_href external_link docs_site). reflexivity.
Defined.

(** C4 on the code: the network location of a loopback link with a port
    is [localhost:8000], which is none of the two names the hook exempts;
    the link is annotated. *)
Theorem localhost_with_port_is_annotated :
  UrlParse.netloc (py "http://localhost:8000/x") = Ok (py "localhost:8000")
  /\ annotate localhost_link docs_site = Ok localhost_link_annotated
  /\ annotate bare_localhost_link docs_site = Ok bare_localhost_link.
Proof. repeat split; reflexivity. Qed.




(** C6: for an external tag, [target] is inserted exactly when the tag
    as matched holds no [target=], and [rel] exactly when the tag as
    matched holds no [rel=]; the link with [rel="nofollow"] gains the
    first directive only, and holds [rel=] once afterwards. *)
Theorem existing_attributes_respected :
  (forall (config : gmap string pyval) m,
     is_external config (Re.group1 m) ->
     replace_external_link config m
     = Ok (let full := Re.group0 m in
           let with_target :=
             if contains (py "target=") full then full
             else replace href_eq target_blank_href full in
           if contains (py "rel=") full then with_target
           else replace href_eq rel_noopener_href with_target))
  /\ annotate nofollow_link docs_site = Ok nofollow_link_annotated
  /\ count (py "rel=") nofollow_link_annotated = 1.
Proof.
  split; [|split; reflexivity].
  intros config m Hext. by rewrite (repl_external _ _ Hext), add_attributes_cases.
Qed.

Lemma existing_attributes_respected_witness :
  replace_external_link docs_config nofollow_match
  = Ok (py "<a " ++ target_blank ++ py "href=" ++ q "https://other.org/x"
        ++ py " rel=" ++ q "nofollow" ++ py ">").
Proof.
  apply (proj1 existing_attributes_respected docs_config nofollow_match).
  exists (py "other.org"), docs_site, (py "docs.example.com").
  repeat split; done.
Defined.





(** C9: the page and the file collection do not reach the result, and of
    the configuration only the [site_url] entry does. *)
Theorem unused_inputs_do_not_interfere (Page Files : Type) (html : str)
    (page1 page2 : Page) (config1 config2 : gmap string pyval)
    (files1 files2 : Files) :
  config1 !! "site_url"%string = config2 !! "site_url"%string ->
  on_page_content html page1 config1 files1
  = on_page_content html page2 config2 files2.
Proof.
  intros Hc. unfold on_page_content, Re.sub. apply sub_from_ext.
  intros m. unfold replace_external_link. by rewrite Hc.
Qed.

Lemma unused_inputs_do_not_interfere_witness :
  on_page_content external_link 1 docs_config [py "index.md"]
  = on_page_content external_link 2 themed_config [py "index.md"; py "api.md"].
Proof.
  apply (unused_inputs_do_not_interfere nat (list str)). reflexivity.
Defined.

(** C10: in an external tag the directives that are missing are put in
    front of every [href=] the tag holds, also of one inside the value of
    the attribute, which is rewritten with the rest. *)
Theorem every_href_occurrence_rewritten :
  (forall (config : gmap string pyval) m (parts : list str),
     is_external config (Re.group1 m) ->
     Re.group0 m = join href_eq parts ->
     forallb (fun part => negb (contains href_eq part)) parts = true ->
     replace_external_link config m
     = Ok (join (inserted (Re.group0 m) ++ href_eq) parts))
  /\ annotate nested_href_link docs_site = Ok nested_href_link_annotated.
Proof.
  split; [|reflexivity].
  intros config m parts Hext Hg Hparts.
  rewrite (repl_external _ _ Hext), Hg. f_equal. apply add_attributes_join.
  apply Forall_forall. intros p Hp.
  rewrite forallb_forall in Hparts. apply negb_true_iff, Hparts.
  by apply list_elem_of_In.
Qed.

Lemma every_href_occurrence_rewritten_witness :
  replace_external_link docs_config nested_href_match
  = Ok (join (target_blank ++ rel_noopener ++ href_eq)
          [py "<a "; [dquote] ++ py "http://x.org/?"; py "1" ++ [dquote] ++ py ">"]).
Proof.
  apply (proj1 every_href_occurrence_rewritten docs_config nested_href_match
           [py "<a "; [dquote] ++ py "http://x.org/?"; py "1" ++ [dquote] ++ py ">"]).
  - exists (py "x.org"), docs_site, (py "docs.example.com").
    repeat split; done.
  - reflexivity.
  - reflexivity.
Defined.

(** * Further properties *)

(** ** What the pattern matches *)

Lemma match_starts_with_lt (s : str) m :
  Re.match_ link_pattern s = Some m -> exists s', s = "<" :: "a" :: s'.
Proof.
  intros (w & A & q1 & V & q2 & B & rest & -> & _)%match_sound.
  unfold anchor. cbn [app]. by eexists.
Qed.

Lemma match_contains_href (s : str) m :
  Re.match_ link_pattern s = Some m -> contains href_eq s = true.
Proof.
  intros (w & A & q1 & V & q2 & B & rest & -> & _)%match_sound.
  apply contains_app_l. rewrite anchor_app. apply contains_spec. by do 2 eexists.
Qed.

(** ** The greedy reading of a tag *)

(** A greedy repetition stops at the longest run after which the rest
    of the pattern matches. *)
Lemma star_longest f k s st r :
  Re.star f k s st = Some r ->
  forall a b, s = a ++ b -> forallb f a = true ->
    is_Some (k b (Re.MState (Re.pos st + length a) (Re.gstart st) (Re.gend st))) ->
    exists a' b', s = a' ++ b' /\ forallb f a' = true /\ length a <= length a'
      /\ k b' (Re.MState (Re.pos st + length a') (Re.gstart st) (Re.gend st)) = Some r.
Proof.
  revert st. induction s as [|x s IH]; intros st H a b E Ha Hk.
  - symmetry in E. apply app_eq_nil in E as [-> ->].
    exists [], []. destruct st. simpl in *. by rewrite Nat.add_0_r.
  - simpl in H. destruct (f x) eqn:Hx.
    + destruct (Re.star f k s (Re.advance st)) as [r0|] eqn:E0.
      * simplify_eq. destruct a as [|y a].
        -- destruct (star_sound _ _ _ _ _ E0) as (a' & b' & -> & Ha' & Hk').
           exists (x :: a'), b'. simpl in *. rewrite Hx, Ha'.
           repeat split; try done; [lia|].
           by replace (Re.pos st + S (length a')) with (S (Re.pos st + length a')) by lia.
        -- cbn [app] in E. injection E as <- ->. simpl in Ha.
           apply andb_true_iff in Ha as [_ Ha].
           destruct (IH _ E0 a b eq_refl Ha) as (a' & b' & E' & Ha' & Hlen & Hk').
           { cbn [Re.advance Re.pos Re.gstart Re.gend length] in *.
             by replace (S (Re.pos st) + length a) with (Re.pos st + S (length a)) by lia. }
           exists (x :: a'), b'. simpl in *. rewrite Hx, Ha', E'.
           repeat split; try done; [lia|].
           by replace (Re.pos st + S (length a')) with (S (Re.pos st) + length a') by lia.
      * destruct a as [|y a].
        -- exists [], (x :: s). destruct st. simpl in *. rewrite Nat.add_0_r. done.
        -- exfalso. cbn [app] in E. injection E as <- ->. simpl in Ha.
           apply andb_true_iff in Ha as [_ Ha].
           destruct (star_complete f k a b (Re.advance st) Ha) as [r' Hr'].
           { cbn [Re.advance Re.pos Re.gstart Re.gend length] in *.
             by replace (S (Re.pos st) + length a) with (Re.pos st + S (length a)) by lia. }
           congruence.
    + destruct a as [|y a].
      * exists [], (x :: s). destruct st. simpl in *. rewrite Nat.add_0_r. done.
      * cbn [app] in E. injection E as <- ->. simpl in Ha. by rewrite Hx in Ha.
Qed.

(** Of the readings of a text as an anchor tag, the pattern takes one
    with the longest attributes in front of [href=]. *)
Lemma match_longest s m w A q1 V q2 B rest :
  Re.match_ link_pattern s = Some m ->
  s = anchor w A q1 V q2 B ++ rest -> anchor_ok w A q1 V q2 B ->
  exists A' q1' V' q2' B' rest',
    s = anchor w A' q1' V' q2' B' ++ rest' /\ anchor_ok w A' q1' V' q2' B'
    /\ Re.group0 m = anchor w A' q1' V' q2' B' /\ Re.group1 m = V'
    /\ length A <= length A'.
Proof.
  intros Hm Es (Hw & HA & Hq1 & HV & HVq & Hq2 & HB). revert Hm.
  unfold Re.match_. rewrite link_pattern_eq.
  destruct (Re.exec _ _ _) as [st|] eqn:H; [|done]. intros [= <-].
  rewrite Es in H. unfold anchor in H. cbn [app Re.exec] in H. rewrite !Ascii.eqb_refl, Hw in H.
  apply star_sound in H as (a1 & s1 & E1 & Ha1 & H).
  cbn [Re.exec] in H.
  (* the white space the pattern takes lies in front of [href=] *)
  assert (exists A2, A = a1 ++ A2) as [A2 ->].
  { rewrite <- app_assoc in E1. symmetry in E1.
    apply app_eq_inv in E1 as [(k & E & E')|(k & -> & _)]; [|by eexists].
    destruct k as [|c k]; [exists []; by rewrite !app_nil_r in *|].
    exfalso. rewrite href_eq_cons in E'. cbn [app] in E'. injection E' as <- _.
    subst a1. rewrite forallb_app in Ha1. apply andb_true_iff in Ha1 as [_ Ha1].
    by cbn in Ha1. }
  rewrite <- !app_assoc in E1. apply app_inv_head in E1. symmetry in E1.
  destruct (star_longest _ _ _ _ _ H A2 _ E1) as (a2 & s2 & E2 & Ha2 & Hlen & H').
  { by apply forallb_app_r in HA. }
  { norm_app. by apply exec_href_complete. }
  clear H. rename H' into H.
  apply exec_href_sound in H as (q1' & V' & q2' & B' & rest' & -> & ? & ? & ? & ? & ? & ->).
  exists (a1 ++ a2), q1', V', q2', B', rest'.
  cbn [Re.pos Re.gstart Re.gend Re.advance].
  assert (forallb not_gt (a1 ++ a2) = true) as HA'.
  { rewrite forallb_app, Ha2, forallb_space_not_gt; done. }
  assert (anchor w (a1 ++ A2) q1 V q2 B ++ rest = anchor w (a1 ++ a2) q1' V' q2' B' ++ rest') as E.
  { unfold anchor. norm_app. do 3 f_equal. f_equal. rewrite <- E2, E1. by norm_app. }
  rewrite Es, E.
  split; [done|]. split; [done|].
  set (tag := anchor w (a1 ++ a2) q1' V' q2' B').
  assert (length tag = 2 + 1 + length a1 + length a2 + (8 + length V' + length B')) as Hl.
  { unfold tag, anchor. norm_len. lia. }
  split; [|split].
  - cbn [Re.group0]. replace (_ + _ + _ + _) with (length tag) by (rewrite Hl; lia).
    by rewrite take_app_length.
  - cbn [Re.group1].
    assert (tag ++ rest'
            = ("<" :: "a" :: w :: (a1 ++ a2) ++ href_eq ++ [q1'])
              ++ V' ++ q2' :: B' ++ ">" :: rest') as ->.
    { unfold tag, anchor. by norm_app. }
    rewrite drop_app_length' by (norm_len; lia).
    replace (_ - _) with (length V') by lia.
    by rewrite take_app_length.
  - rewrite !length_app. lia.
Qed.

(** Two readings of a tag agree when the first has no [href=] behind
    its own and the second takes [href=] no earlier. *)
Lemma anchor_last w A q1 V q2 B rest w' A' q1' V' q2' B' rest' :
  anchor w A q1 V q2 B ++ rest = anchor w' A' q1' V' q2' B' ++ rest' ->
  anchor_ok w A q1 V q2 B -> anchor_ok w' A' q1' V' q2' B' ->
  length A <= length A' ->
  contains href_eq (q1 :: V ++ q2 :: B ++ [">"]) = false ->
  w = w' /\ A = A' /\ q1 = q1' /\ V = V' /\ q2 = q2' /\ B = B' /\ rest = rest'.
Proof.
  intros E (Hw & HA & Hq1 & HV & HVq & Hq2 & HB)
    (Hw' & HA' & Hq1' & HV' & HVq' & Hq2' & HB') HcA HcX.
  unfold anchor in E. cbn [app] in E. injection E as -> E.
  assert (A ++ href_eq ++ q1 :: V ++ q2 :: B ++ ">" :: rest
          = A' ++ href_eq ++ q1' :: V' ++ q2' :: B' ++ ">" :: rest') as E'.
  { revert E. by norm_app. }
  clear E. rename E' into E.
  apply href_occ_cases in E as [[-> E]|[(k & -> & E)|(k & -> & E)]].
  - injection E as -> E.
    destruct (split_unique is_quote V V' q2 q2' _ _ HVq HVq' Hq2 Hq2' E) as (-> & -> & E').
    destruct (split_unique (fun c => Ascii.eqb c ">") B B' ">" ">" _ _ HB HB' eq_refl eq_refl E')
      as (-> & _ & ->).
    done.
  - exfalso.
    assert (forallb not_gt k = true) as Hk.
    { by apply forallb_app_r, forallb_app_r in HA'. }
    assert ((q1 :: V ++ q2 :: B) ++ ">" :: rest = k ++ href_eq ++ q1' :: V' ++ q2' :: B' ++ ">" :: rest') as E'.
    { rewrite <- E. by norm_app. }
    clear E. apply app_eq_inv in E' as [(k2 & E1 & E2)|(k2 & E1 & E2)].
    + assert (startswith href_eq (k2 ++ ">" :: rest) = true) as Hs.
      { rewrite <- E2. apply startswith_app. }
      apply startswith_app_cases in Hs as [Hs|(y2 & Ey & Hs)].
      * assert (contains href_eq (q1 :: V ++ q2 :: B ++ [">"]) = true) as Hc; [|congruence].
        replace (q1 :: V ++ q2 :: B ++ [">"]) with (k ++ k2 ++ [">"]).
        2:{ rewrite app_assoc, <- E1. by norm_app. }
        apply contains_app_r, contains_app_l. by apply startswith_contains.
      * destruct y2 as [|d y2].
        -- rewrite app_nil_r in Ey. subst k2.
           assert (contains href_eq (q1 :: V ++ q2 :: B ++ [">"]) = true) as Hc; [|congruence].
           replace (q1 :: V ++ q2 :: B ++ [">"]) with (k ++ href_eq ++ [">"]).
           2:{ rewrite app_assoc, <- E1. by norm_app. }
           apply contains_app_r, contains_app_l, startswith_contains, startswith_refl.
        -- simpl in Hs. destruct (Ascii.eqb_spec d ">") as [->|]; [|done].
           rewrite href_eq_cons in Ey.
           do 6 (destruct k2 as [|? k2]; simplify_eq/=).
    + destruct k2 as [|d k2].
      * rewrite href_eq_cons in E2. simplify_eq/=.
      * cbn [app] in E2. injection E2 as <- _. subst k.
        apply forallb_app_r in Hk. by cbn in Hk.
  - exfalso. rewrite !length_app in HcA. change (length href_eq) with 5 in HcA. lia.
Qed.

(** The match on a tag that holds no [href=] behind the attribute. *)
Lemma match_last_href w A q1 V q2 B rest :
  anchor_ok w A q1 V q2 B ->
  contains href_eq (q1 :: V ++ q2 :: B ++ [">"]) = false ->
  Re.match_ link_pattern (anchor w A q1 V q2 B ++ rest)
  = Some {| Re.group0 := anchor w A q1 V q2 B; Re.group1 := V |}.
Proof.
  intros Hok Hc.
  destruct (match_complete w A q1 V q2 B rest Hok) as [m Hm]. rewrite Hm.
  destruct (match_longest _ _ _ _ _ _ _ _ _ Hm eq_refl Hok)
    as (A' & q1' & V' & q2' & B' & rest' & E & Hok' & Hg0 & Hg1 & Hlen).
  destruct (anchor_last _ _ _ _ _ _ _ _ _ _ _ _ _ _ E Hok Hok' Hlen Hc)
    as (_ & <- & <- & <- & <- & <- & <-).
  destruct m. cbn in *. by subst.
Qed.

(** ** The pass and the matches it finds *)

(** The pass raises exactly when the replacement function raises on one
    of the matches that [finditer] lists. *)
Lemma sub_from_raises p repl k (s : str) :
  Re.sub_from p repl k s = Raise ValueError
  <-> Exists (fun m => repl m = Raise ValueError) (Re.finditer_from p k s).
Proof.
  revert k. induction s as [|c s IH]; intros k.
  - split; [done|]. by intros ?%Exists_nil.
  - destruct k as [|k]; cbn [Re.sub_from Re.finditer_from]; [|apply IH].
    destruct (Re.match_ p (c :: s)) as [m|] eqn:Hm.
    + rewrite Exists_cons. destruct (repl m) as [r|[]] eqn:Hr; cbn [mbind result_bind].
      * destruct (length (Re.group0 m)) as [|j]; cbn [Nat.pred].
        -- rewrite <- IH. destruct (Re.sub_from p repl 0 s) as [?|[]]; cbn [mbind result_bind];
             (split; [done|by intros [?|?]]) || (split; [by right|done]).
        -- rewrite <- IH. destruct (Re.sub_from p repl j s) as [?|[]]; cbn [mbind result_bind];
             (split; [done|by intros [?|?]]) || (split; [by right|done]).
      * split; [by left|done].
    + rewrite <- IH. destruct (Re.sub_from p repl 0 s) as [?|[]]; cbn [mbind result_bind]; done.
Qed.

(** The pass returns the text when the replacement function returns the
    matched text on each of the matches that [finditer] lists. *)
Lemma sub_from_keeps p repl k (s : str) :
  Forall (fun m => repl m = Ok (Re.group0 m)) (Re.finditer_from p k s) ->
  Re.sub_from p repl k s = Ok (drop k s).
Proof.
  revert k. induction s as [|c s IH]; intros k H.
  - by rewrite drop_nil.
  - destruct k as [|k]; cbn [Re.sub_from Re.finditer_from] in *; [|by apply IH].
    destruct (Re.match_ p (c :: s)) as [m|] eqn:Hm.
    + apply Forall_cons in H as [Hr H]. rewrite Hr. cbn [mbind result_bind].
      destruct (match_group0 _ _ _ Hm) as [n Hn].
      destruct (length (Re.group0 m)) as [|j] eqn:Hlen; cbn [Nat.pred] in H.
      * rewrite (IH 0 H). cbn [mbind result_bind drop].
        by apply length_zero_iff_nil in Hlen as ->.
      * rewrite (IH j H). cbn [mbind result_bind drop]. f_equal.
        rewrite Hn, <- take_length_take, <- Hn, Hlen. cbn [take].
        by rewrite <- app_comm_cons, take_drop.
    + by rewrite (IH 0 H).
Qed.

(** No match in a text that lacks something every match holds. *)
Lemma finditer_absent (x s : str) :
  (forall t m, Re.match_ link_pattern t = Some m -> contains x t = true) ->
  contains x s = false -> Re.finditer link_pattern s = [].
Proof.
  intros Hx. induction s as [|c s IH]; intros H; [done|].
  destruct (Re.match_ link_pattern (c :: s)) as [m|] eqn:Hm.
  - by rewrite (Hx _ _ Hm) in H.
  - destruct (sub_nomatch (fun _ => Ok []) c s Hm) as [_ ->].
    apply IH. by eapply contains_false_tail.
Qed.

(** Each match of the pass is a match at the start of a suffix of the
    text, and its group 1 lies inside that suffix. *)
Lemma finditer_from_suffix p k (s : str) m :
  m ∈ Re.finditer_from p k s ->
  exists pre t, s = pre ++ t /\ Re.match_ p t = Some m.
Proof.
  revert k. induction s as [|c s IH]; intros k H; [by apply elem_of_nil in H|].
  assert (forall k, m ∈ Re.finditer_from p k s ->
            exists pre t, c :: s = pre ++ t /\ Re.match_ p t = Some m) as IH'.
  { intros k' (pre & t & -> & Ht)%IH. by exists (c :: pre), t. }
  destruct k as [|k]; cbn [Re.finditer_from] in H; [|by eapply IH'].
  destruct (Re.match_ p (c :: s)) as [m'|] eqn:Hm; [|by eapply IH'].
  apply elem_of_cons in H as [->|H]; [by exists [], (c :: s)|by eapply IH'].
Qed.

Lemma group1_infix p (t : str) m :
  Re.match_ p t = Some m -> exists a b, t = a ++ Re.group1 m ++ b.
Proof.
  unfold Re.match_. destruct (Re.exec p t _) as [st|]; [|done]. intros [= <-].
  cbn [Re.group1]. exists (take (Re.gstart st) t), (drop (Re.gend st - Re.gstart st) (drop (Re.gstart st) t)).
  by rewrite !take_drop.
Qed.

(** A pass that returns a text other than the one it was given has
    found a match that its replacement function rewrites. *)
Lemma sub_from_changes p repl k (s out : str) :
  Re.sub_from p repl k s = Ok out -> out <> drop k s ->
  Exists (fun m => exists r, repl m = Ok r /\ r <> Re.group0 m) (Re.finditer_from p k s).
Proof.
  revert k out. induction s as [|c s IH]; intros k out H Hne.
  - rewrite drop_nil in Hne. cbn in H. by simplify_eq.
  - destruct k as [|k]; cbn [Re.sub_from Re.finditer_from] in *; [|by eapply IH].
    cbn [drop] in Hne. destruct (Re.match_ p (c :: s)) as [m|] eqn:Hm.
    + destruct (repl m) as [r|[]] eqn:Hr; cbn [mbind result_bind] in H; [|done].
      destruct (decide (r = Re.group0 m)) as [->|Hrm].
      2:{ apply Exists_cons_hd. by exists r. }
      apply Exists_cons_tl.
      destruct (match_group0 _ _ _ Hm) as [n Hn].
      destruct (length (Re.group0 m)) as [|j] eqn:Hlen; cbn [Nat.pred].
      * destruct (Re.sub_from p repl 0 s) as [o|[]] eqn:Ho;
          cbn [mbind result_bind] in H; [|done]. simplify_eq.
        apply (IH 0 o Ho). intros ->. apply Hne.
        by apply length_zero_iff_nil in Hlen as ->.
      * destruct (Re.sub_from p repl j s) as [o|[]] eqn:Ho;
          cbn [mbind result_bind] in H; [|done]. simplify_eq.
        apply (IH j o Ho). intros ->. apply Hne.
        rewrite Hn, <- take_length_take, <- Hn, Hlen. cbn [take].
        by rewrite <- app_comm_cons, take_drop.
    + destruct (Re.sub_from p repl 0 s) as [o|[]] eqn:Ho;
        cbn [mbind result_bind] in H; [|done]. simplify_eq.
      apply (IH 0 o Ho). by intros ->.
Qed.

(** ** Link targets without two slashes *)

Lemma lstrip_suffix f (s : str) : exists pre, s = pre ++ lstrip f s.
Proof.
  induction s as [|c s [pre IH]]; [by exists []|]. simpl.
  destruct (f c); [|by exists []]. exists (c :: pre). by rewrite <- app_comm_cons, <- IH.
Qed.

Lemma after_scheme_suffix (url : str) :
  exists pre, List.filter (fun c => negb (UrlParse.is_unsafe_url_byte c)) url
              = pre ++ UrlParse.after_scheme url.
Proof.
  unfold UrlParse.after_scheme.
  destruct (lstrip_suffix UrlParse.is_c0_control_or_space url) as [pre E].
  set (u := List.filter _ (lstrip _ url)).
  assert (exists pre', List.filter (fun c => negb (UrlParse.is_unsafe_url_byte c)) url
                       = pre' ++ u) as [pre' ->].
  { exists (List.filter (fun c => negb (UrlParse.is_unsafe_url_byte c)) pre).
    unfold u. by rewrite <- List.filter_app, <- E. }
  destruct (find ":" u) as [i|]; [|by exists pre'].
  destruct (_ && _ && _); [|by exists pre'].
  exists (pre' ++ take (S i) u). by rewrite <- app_assoc, take_drop.
Qed.

(** A target in which no two slashes follow each other has no network
    location. *)
Lemma netloc_no_double_slash (url : str) :
  no_double_slash url = true -> UrlParse.netloc url = Ok [].
Proof.
  unfold no_double_slash. intros H%negb_true_iff. unfold UrlParse.netloc.
  destruct (startswith _ (UrlParse.after_scheme url)) eqn:E; [|done].
  destruct (after_scheme_suffix url) as [pre Hpre]. rewrite Hpre in H.
  assert (contains (py "//") (pre ++ UrlParse.after_scheme url) = true) as Hc; [|congruence].
  apply contains_app_r, startswith_contains. exact E.
Qed.

Lemma no_double_slash_infix (a s b : str) :
  no_double_slash (a ++ s ++ b) = true -> no_double_slash s = true.
Proof.
  unfold no_double_slash. intros H%negb_true_iff. apply negb_true_iff.
  rewrite !List.filter_app in H.
  destruct (contains _ (List.filter _ s)) eqn:E; [|done].
  rewrite <- H. symmetry. by apply contains_app_r, contains_app_l.
Qed.

(** ** Directives are added, nothing else *)

Lemma da_refl (s : str) : directives_added s s.
Proof. induction s; by constructor. Qed.

Lemma da_app (a a' b b' : str) :
  directives_added a a' -> directives_added b b' ->
  directives_added (a ++ b) (a' ++ b').
Proof.
  intros Ha Hb. induction Ha as [|c s out _ IH|ins s out Hins _ IH].
  - done.
  - cbn [app]. by constructor.
  - rewrite <- !app_assoc. by constructor.
Qed.

Lemma da_sublist (s out : str) : directives_added s out -> sublist s out.
Proof.
  induction 1 as [|c s out _ IH|ins s out _ _ IH].
  - done.
  - by constructor.
  - apply sublist_inserts_l. by apply sublist_app.
Qed.

(** Every text is a [join] over [href=] of parts that hold none. *)
Lemma join_split (n : nat) (s : str) :
  length s <= n ->
  exists parts, s = join href_eq parts
    /\ Forall (fun p => contains href_eq p = false) parts.
Proof.
  revert s. induction n as [|n IH]; intros s Hn.
  - exists [s]. destruct s; [|simpl in Hn; lia]. by repeat constructor.
  - destruct (contains href_eq s) eqn:Hc.
    + apply contains_first in Hc as (a & b & -> & Ha); [|done].
      destruct (IH b) as (parts & -> & Hparts).
      { rewrite !length_app in Hn. change (length href_eq) with 5 in Hn. lia. }
      destruct parts as [|p ps].
      * exists [a; []]. split; [done|]. by repeat constructor.
      * exists (a :: p :: ps). split; [done|]. by constructor.
    + exists [s]. by repeat constructor.
Qed.

Lemma da_join ins (parts : list str) :
  ins ∈ [target_blank; rel_noopener; target_blank ++ rel_noopener] ->
  directives_added (join href_eq parts) (join (ins ++ href_eq) parts).
Proof.
  intros Hins. induction parts as [|p ps IH]; [constructor|].
  destruct ps as [|p' ps]; [apply da_refl|].
  change (directives_added (p ++ href_eq ++ join href_eq (p' :: ps))
            (p ++ (ins ++ href_eq) ++ join (ins ++ href_eq) (p' :: ps))).
  apply da_app; [apply da_refl|]. rewrite <- app_assoc. by constructor.
Qed.

Lemma da_add_attributes (t : str) : directives_added t (add_attributes t).
Proof.
  destruct (join_split (length t) t) as (parts & -> & Hparts); [done|].
  rewrite add_attributes_join by done. unfold inserted.
  destruct (contains (py "target=") _), (contains (py "rel=") _); cbn [app].
  - apply da_refl.
  - apply da_join. set_solver.
  - rewrite app_nil_r. apply da_join. set_solver.
  - apply da_join. set_solver.
Qed.

Lemma da_repl (config : gmap string pyval) m r :
  replace_external_link config m = Ok r -> directives_added (Re.group0 m) r.
Proof.
  intros H. destruct (repl_cases config m) as [E|[E|E]]; rewrite E in H;
    simplify_eq; [apply da_refl|apply da_add_attributes].
Qed.

Lemma sub_from_da p repl k (s out : str) :
  (forall m r, repl m = Ok r -> directives_added (Re.group0 m) r) ->
  Re.sub_from p repl k s = Ok out -> directives_added (drop k s) out.
Proof.
  intros Hrepl. revert k out. induction s as [|c s IH]; intros k out H.
  - rewrite drop_nil. cbn in H. simplify_eq. constructor.
  - destruct k as [|k]; cbn [Re.sub_from] in H; [|by apply IH].
    cbn [drop]. destruct (Re.match_ p (c :: s)) as [m|] eqn:Hm.
    + destruct (repl m) as [r|[]] eqn:Hr; cbn [mbind result_bind] in H; [|done].
      destruct (match_group0 _ _ _ Hm) as [n Hn].
      destruct (length (Re.group0 m)) as [|j] eqn:Hlen.
      * destruct (Re.sub_from p repl 0 s) as [o|[]] eqn:Ho;
          cbn [mbind result_bind] in H; [|done]. simplify_eq.
        apply length_zero_iff_nil in Hlen.
        apply (da_app [] r (c :: s) (c :: o)).
        -- rewrite <- Hlen. by apply Hrepl.
        -- constructor. by apply (IH 0).
      * destruct (Re.sub_from p repl j s) as [o|[]] eqn:Ho;
          cbn [mbind result_bind] in H; [|done]. simplify_eq.
        replace (c :: s) with (Re.group0 m ++ drop j s).
        -- apply da_app; [by apply Hrepl|by apply IH].
        -- rewrite Hn, <- take_length_take, <- Hn, Hlen. cbn [take].
           by rewrite <- app_comm_cons, take_drop.
    + destruct (Re.sub_from p repl 0 s) as [o|[]] eqn:Ho;
        cbn [mbind result_bind] in H; [|done]. simplify_eq.
      constructor. by apply (IH 0).
Qed.

(** ** The properties *)

Section Further.
Context {Page Files : Type} (page : Page) (files : Files).
Context (config : gmap string pyval).

(** What [replace_external_link] returns is the tag as matched, unless
    the link target is external. *)
Lemma repl_changes m r :
  replace_external_link config m = Ok r -> r <> Re.group0 m ->
  is_external config (Re.group1 m).
Proof.
  unfold replace_external_link, is_external.
  destruct (UrlParse.netloc (Re.group1 m)) as [d|[]] eqn:Hd; cbn [mbind result_bind]; [|done].
  destruct (decide (d = [])) as [->|Hne].
  { rewrite bool_decide_eq_true_2 by done. cbn [negb andb]. by intros [= <-]. }
  rewrite (bool_decide_eq_false_2 _ Hne). cbn [negb andb].
  destruct (decide (d ∈ [py "localhost"; py "127.0.0.1"])) as [Hl|Hl].
  { rewrite (bool_decide_eq_true_2 _ Hl). cbn [negb]. by intros [= <-]. }
  rewrite (bool_decide_eq_false_2 _ Hl). cbn [negb].
  assert (d <> py "localhost" /\ d <> py "127.0.0.1") as [Hl1 Hl2].
  { split; intros ->; apply Hl; set_solver. }
  destruct (config !! "site_url"%string) as [[|[|c site]]|] eqn:Hc;
    cbn [default from_option id truthy]; try by intros [= <-].
  destruct (UrlParse.netloc (c :: site)) as [sd|[]] eqn:Hs; cbn [mbind result_bind]; [|done].
  destruct (decide (d = sd)) as [->|Hdiff].
  { rewrite bool_decide_eq_true_2 by done. cbn [negb]. by intros [= <-]. }
  intros _ _. by exists d, (c :: site), sd.
Qed.

(** X1: the pattern matches at the start of a text exactly when the text
    starts with an anchor tag: [<a], a white space character, attributes
    without [>], [href=], a non-empty value without quote between two
    quotes, of the same kind or not, attributes without [>], and [>]. *)
Theorem link_pattern_matches_anchors (s : str) :
  is_Some (Re.match_ link_pattern s)
  <-> exists w A q1 V q2 B rest,
        s = anchor w A q1 V q2 B ++ rest /\ anchor_ok w A q1 V q2 B.
Proof.
  split.
  - intros [m Hm].
    apply match_sound in Hm as (w & A & q1 & V & q2 & B & rest & E & Hok & _).
    by exists w, A, q1, V, q2, B, rest.
  - intros (w & A & q1 & V & q2 & B & rest & -> & Hok). by apply match_complete.
Qed.

(** X2: when [href=] occurs several times in a tag, the link target is
    the value behind the last one: a tag that holds no [href=] behind
    its attribute is matched whole, with that value as group 1, whatever
    stands in front of the attribute. *)
Theorem last_href_is_the_target w A q1 V q2 B rest :
  anchor_ok w A q1 V q2 B ->
  contains href_eq (q1 :: V ++ q2 :: B ++ [">"]) = false ->
  Re.match_ link_pattern (anchor w A q1 V q2 B ++ rest)
  = Some {| Re.group0 := anchor w A q1 V q2 B; Re.group1 := V |}.
Proof. apply match_last_href. Qed.

(** X3: a page that holds no [<a], or no [href=], comes back as it is
    under every configuration; nothing is parsed and nothing is raised. *)
Theorem page_without_anchor_unchanged (html : str) :
  contains (py "<a") html = false \/ contains href_eq html = false ->
  on_page_content html page config files = Ok html.
Proof.
  intros H. unfold on_page_content, Re.sub.
  rewrite sub_from_keeps; [done|].
  assert (Re.finditer link_pattern html = []) as Hf; [|unfold Re.finditer in Hf; by rewrite Hf].
  destruct H as [H|H].
  - apply (finditer_absent (py "<a")); [|done].
    intros t m [s' ->]%match_starts_with_lt. done.
  - apply (finditer_absent href_eq); [|done]. apply match_contains_href.
Qed.

(** X4: a page in which no two slashes follow each other, also not
    across TAB, CR or LF, comes back as it is under every configuration:
    none of its link targets has a network location. *)
Theorem page_without_double_slash_unchanged (html : str) :
  no_double_slash html = true ->
  on_page_content html page config files = Ok html.
Proof.
  intros H. unfold on_page_content, Re.sub. rewrite sub_from_keeps; [done|].
  apply Forall_forall. intros m (pre & t & E & Hm)%finditer_from_suffix.
  apply repl_no_netloc, netloc_no_double_slash.
  destruct (group1_infix _ _ _ Hm) as (a & b & ->).
  apply (no_double_slash_infix (pre ++ a) _ b). by rewrite <- app_assoc, <- E.
Qed.

(** X5: text in front of the first [<] is copied, and the pass goes on
    behind it as on a page of its own. *)
Theorem leading_text_is_copied (text html : str) :
  has "<" text = false ->
  on_page_content (text ++ html) page config files
  = (out ← on_page_content html page config files; Ok (text ++ out)).
Proof.
  unfold on_page_content. induction text as [|c text IH]; intros H.
  - cbn [app]. by destruct (Re.sub _ _ html) as [?|[]].
  - cbn [has existsb] in H. apply orb_false_iff in H as [Hc H].
    assert (Re.match_ link_pattern (c :: text ++ html) = None) as Hm.
    { destruct (Re.match_ _ _) as [m|] eqn:Hm; [|done].
      apply match_starts_with_lt in Hm as [s' [= -> _]]. done. }
    cbn [app]. destruct (sub_nomatch (replace_external_link config) _ _ Hm) as [-> _].
    rewrite (IH H). by destruct (Re.sub _ _ html) as [?|[]].
Qed.

(** X6: a tag at the start of the page that holds no [href=] behind its
    attribute is handed to [replace_external_link] on its own, and the
    pass goes on behind it as on a page of its own; an exception of
    either ends the pass. *)
Theorem leading_tag_is_handled_alone w A q1 V q2 B rest :
  anchor_ok w A q1 V q2 B ->
  contains href_eq (q1 :: V ++ q2 :: B ++ [">"]) = false ->
  on_page_content (anchor w A q1 V q2 B ++ rest) page config files
  = (tag ← replace_external_link config
             {| Re.group0 := anchor w A q1 V q2 B; Re.group1 := V |};
     out ← on_page_content rest page config files;
     Ok (tag ++ out)).
Proof.
  intros Hok Hc. unfold on_page_content.
  destruct (sub_match (replace_external_link config) _ _ (match_last_href w A q1 V q2 B rest Hok Hc))
    as (rest' & E & -> & _).
  cbn [Re.group0] in E. by apply app_inv_head in E as <-.
Qed.

(** X7: the hook raises exactly when [replace_external_link] raises on
    one of the tags that the pattern finds in the page. *)
Theorem hook_raises_iff_a_tag_raises (html : str) :
  on_page_content html page config files = Raise ValueError
  <-> Exists (fun m => replace_external_link config m = Raise ValueError)
             (Re.finditer link_pattern html).
Proof. apply sub_from_raises. Qed.

(** X8: [replace_external_link] raises exactly when the link target
    does not parse, or when the target has a network location other than
    the two loopback names and a non-empty site URL does not parse. *)
Theorem tag_raises_iff m :
  replace_external_link config m = Raise ValueError
  <-> UrlParse.netloc (Re.group1 m) = Raise ValueError
      \/ exists netloc site,
           UrlParse.netloc (Re.group1 m) = Ok netloc
           /\ netloc <> [] /\ netloc <> py "localhost" /\ netloc <> py "127.0.0.1"
           /\ config !! "site_url"%string = Some (PyStr site) /\ site <> []
           /\ UrlParse.netloc site = Raise ValueError.
Proof.
  unfold replace_external_link.
  destruct (UrlParse.netloc (Re.group1 m)) as [d|[]] eqn:Hd; cbn [mbind result_bind].
  2:{ split; [by left|done]. }
  destruct (decide (d = [])) as [->|Hne].
  { rewrite bool_decide_eq_true_2 by done. cbn [negb andb].
    split; [done|]. intros [?|(n & s & [= <-] & ? & _)]; done. }
  rewrite (bool_decide_eq_false_2 _ Hne). cbn [negb andb].
  destruct (decide (d ∈ [py "localhost"; py "127.0.0.1"])) as [Hl|Hl].
  { rewrite (bool_decide_eq_true_2 _ Hl). cbn [negb].
    split; [done|]. intros [?|(n & s & [= <-] & _ & H1 & H2 & _)]; [done|].
    apply elem_of_cons in Hl as [->|Hl]; [done|].
    apply elem_of_cons in Hl as [->|Hl]; [done|]. by apply elem_of_nil in Hl. }
  rewrite (bool_decide_eq_false_2 _ Hl). cbn [negb].
  assert (d <> py "localhost" /\ d <> py "127.0.0.1") as [Hl1 Hl2].
  { split; intros ->; apply Hl; set_solver. }
  destruct (config !! "site_url"%string) as [[|[|c site]]|] eqn:Hc;
    cbn [default from_option id truthy].
  - split; [done|]. intros [?|(n & s & _ & _ & _ & _ & ? & _)]; done.
  - split; [done|]. intros [?|(n & s & _ & _ & _ & _ & [= <-] & ? & _)]; done.
  - destruct (UrlParse.netloc (c :: site)) as [sd|[]] eqn:Hs; cbn [mbind result_bind].
    + split; [by destruct (negb _)|].
      intros [?|(n & s & _ & _ & _ & _ & [= <-] & _ & ?)]; [done|congruence].
    + split; [|done]. intros _. right. by exists d, (c :: site).
  - split; [done|]. intros [?|(n & s & _ & _ & _ & _ & ? & _)]; done.
Qed.


(** X10: a target whose network location is [localhost] or
    [127.0.0.1], with nothing added, leaves its tag as it is under every
    configuration; the site URL is not even parsed. *)
Theorem loopback_names_exempt m (netloc : str) :
  UrlParse.netloc (Re.group1 m) = Ok netloc ->
  netloc = py "localhost" \/ netloc = py "127.0.0.1" ->
  replace_external_link config m = Ok (Re.group0 m).
Proof.
  intros Hd Hl. unfold replace_external_link. rewrite Hd. cbn [mbind result_bind].
  rewrite (bool_decide_eq_true_2 (netloc ∈ _)); [by rewrite andb_false_r|].
  destruct Hl as [-> | ->]; set_solver.
Qed.

(** X11: [replace_external_link] changes a tag only when its target is
    external, and then by the two guarded [replace] calls. *)
Theorem only_external_tags_change m (tag : str) :
  replace_external_link config m = Ok tag -> tag <> Re.group0 m ->
  is_external config (Re.group1 m) /\ tag = add_attributes (Re.group0 m).
Proof.
  intros H Hne. split; [by eapply repl_changes|].
  destruct (repl_cases config m) as [E|[E|E]]; rewrite E in H; by simplify_eq.
Qed.

(** X12: the hook changes a page only when the pattern finds in it a
    tag with an external target. *)
Theorem page_changes_only_with_external_link (html out : str) :
  on_page_content html page config files = Ok out -> out <> html ->
  Exists (fun m => is_external config (Re.group1 m)) (Re.finditer link_pattern html).
Proof.
  intros H Hne.
  eapply Exists_impl; [by apply (sub_from_changes _ _ 0 html out H)|].
  intros m (r & Hr & Hrm). by eapply repl_changes.
Qed.

(** X13: a matched tag with an external target holds both [target=]
    and [rel=] once it is rewritten. *)
Theorem external_tag_gets_both_directives (s : str) m :
  Re.match_ link_pattern s = Some m ->
  is_external config (Re.group1 m) ->
  exists tag, replace_external_link config m = Ok tag
    /\ contains (py "target=") tag = true /\ contains (py "rel=") tag = true.
Proof.
  intros Hm Hext. exists (add_attributes (Re.group0 m)).
  split; [by apply repl_external|].
  assert (contains href_eq (Re.group0 m) = true) as Hh.
  { apply match_sound in Hm as (w & A & q1 & V & q2 & B & rest & _ & _ & -> & _).
    rewrite anchor_app. apply contains_spec. by do 2 eexists. }
  rewrite add_attributes_cases. cbv zeta.
  destruct (contains (py "target=") (Re.group0 m)) eqn:Et,
    (contains (py "rel=") (Re.group0 m)) eqn:Er.
  - done.
  - by rewrite target_after_rel, rel_inserted.
  - by rewrite rel_after_target, target_inserted.
  - rewrite target_after_rel, target_inserted by done. split; [done|].
    apply rel_inserted. by rewrite href_after_replace.
Qed.

(** X14: a tag that [replace_external_link] has returned is returned as
    it is when it is handed in again with the same link target. *)
Theorem rewritten_tag_is_stable m (tag : str) :
  replace_external_link config m = Ok tag ->
  replace_external_link config {| Re.group0 := tag; Re.group1 := Re.group1 m |} = Ok tag.
Proof. intros H. by apply (repl_stable config m). Qed.

(** X15: whatever the hook returns is the page with [target], [rel] or
    both put directly in front of some of its [href=]: no character of
    the page is dropped or changed, and nothing else is added. *)
Theorem hook_only_adds_directives (html out : str) :
  on_page_content html page config files = Ok out ->
  directives_added html out.
Proof.
  intros H. apply (sub_from_da link_pattern (replace_external_link config) 0); [|done].
  apply da_repl.
Qed.

(** X16: the page is a subsequence of what the hook returns, which is
    never shorter. *)
Theorem hook_keeps_the_page_text (html out : str) :
  on_page_content html page config files = Ok out ->
  sublist html out /\ length html <= length out.
Proof.
  intros H.
  assert (sublist html out) as Hs.
  { apply da_sublist.
    apply (sub_from_da link_pattern (replace_external_link config) 0); [|done].
    apply da_repl. }
  split; [done|]. by apply sublist_length.
Qed.

End Further.

(** ** The properties at the samples *)

Lemma last_href_is_the_target_witness :
  Re.match_ link_pattern (data_href_link ++ py "x</a>")
  = Some {| Re.group0 := data_href_link; Re.group1 := py "http://x.org/" |}.
Proof.
  apply (last_href_is_the_target " " data_href_attrs dquote (py "http://x.org/")
           dquote [] (py "x</a>")).
  - repeat split; done.
  - reflexivity.
Defined.

Lemma page_without_anchor_unchanged_witness :
  on_page_content plain_page 1 docs_config [py "index.md"] = Ok plain_page.
Proof.
  apply (page_without_anchor_unchanged 1 [py "index.md"] docs_config plain_page).
  left. reflexivity.
Defined.

Lemma page_without_double_slash_unchanged_witness :
  on_page_content relative_page 1 docs_config [py "index.md"] = Ok relative_page.
Proof.
  apply (page_without_double_slash_unchanged 1 [py "index.md"] docs_config relative_page).
  reflexivity.
Defined.

Lemma leading_text_is_copied_witness :
  on_page_content (py "See " ++ external_link) 1 docs_config [py "index.md"]
  = (out ← on_page_content external_link 1 docs_config [py "index.md"];
     Ok (py "See " ++ out)).
Proof.
  apply (leading_text_is_copied 1 [py "index.md"] docs_config (py "See ") external_link).
  reflexivity.
Defined.

Lemma leading_tag_is_handled_alone_witness :
  on_page_content (data_href_link ++ py "x</a>") 1 docs_config [py "index.md"]
  = (tag ← replace_external_link docs_config
             {| Re.group0 := data_href_link; Re.group1 := py "http://x.org/" |};
     out ← on_page_content (py "x</a>") 1 docs_config [py "index.md"];
     Ok (tag ++ out)).
Proof.
  apply (leading_tag_is_handled_alone 1 [py "index.md"] docs_config
           " " data_href_attrs dquote (py "http://x.org/") dquote [] (py "x</a>")).
  - repeat split; done.
  - reflexivity.
Defined.


Lemma loopback_names_exempt_witness :
  replace_external_link docs_config bare_localhost_match
  = Ok (Re.group0 bare_localhost_match).
Proof.
  apply (loopback_names_exempt docs_config bare_localhost_match (py "localhost")).
  - reflexivity.
  - left. reflexivity.
Defined.

Lemma only_external_tags_change_witness :
  is_external docs_config (Re.group1 external_match)
  /\ external_tag_annotated = add_attributes (Re.group0 external_match).
Proof.
  apply (only_external_tags_change docs_config external_match external_tag_annotated).
  - reflexivity.
  - discriminate.
Defined.

Lemma page_changes_only_with_external_link_witness :
  Exists (fun m => is_external docs_config (Re.group1 m))
         (Re.finditer link_pattern external_link).
Proof.
  apply (page_changes_only_with_external_link 1 [py "index.md"] docs_config
           external_link external_link_annotated).
  - reflexivity.
  - discriminate.
Defined.

Lemma external_tag_gets_both_directives_witness :
  exists tag, replace_external_link docs_config external_match = Ok tag
    /\ contains (py "target=") tag = true /\ contains (py "rel=") tag = true.
Proof.
  apply (external_tag_gets_both_directives docs_config external_link external_match).
  - reflexivity.
  - exists (py "other.org"), docs_site, (py "docs.example.com").
    repeat split; done.
Defined.

Lemma rewritten_tag_is_stable_witness :
  replace_external_link docs_config
    {| Re.group0 := external_tag_annotated; Re.group1 := Re.group1 external_match |}
  = Ok external_tag_annotated.
Proof.
  apply (rewritten_tag_is_stable docs_config external_match external_tag_annotated).
  reflexivity.
Defined.

Lemma hook_only_adds_directives_witness :
  directives_added external_link external_link_annotated.
Proof.
  apply (hook_only_adds_directives 1 [py "index.md"] docs_config
           external_link external_link_annotated).
  reflexivity.
Defined.

Lemma hook_keeps_the_page_text_witness :
  sublist external_link external_link_annotated
  /\ length external_link <= length external_link_annotated.
Proof.
  apply (hook_keeps_the_page_text 1 [py "index.md"] docs_config
           external_link external_link_annotated).
  reflexivity.
Defined.
